(** * PaleoCore-Analyst: age-model calibration and composite splice

    A shallow embedding of the calibration merge of
    [services/geminiService.ts] ([generateAgeModel]), of the splice logic of
    the [CoreSynthesisView] component ([handleGenerateAgeModel],
    [handleSpliceIntervalChange], [compositeSplice]; its text is the second
    half of [components/DataInputManager.tsx] in the source tree) and of the
    data-point entry of the [DataInputManager] component
    ([handleAddDataPoint], [handleConfirmMapping]).

    Conventions of the embedding:
    - a JavaScript number is a [number]: [NaN], the two infinities, or a finite
      value carried as a canonical rational.  Every IEEE double is such a
      value; the operations the sources apply to numbers in the modelled code
      (comparison, [===], [Math.min], [Math.max], the sign of a difference)
      are exact on doubles, so nothing is lost for them.  The two zeros are
      identified: no modelled code can tell them apart.
    - an object whose keys are proxy names (a [DataPoint]) is a finite map
      from key to number; a key whose value is [undefined] is modelled as an
      absent key (the modelled code only reads fields and compares the
      result with [undefined]).
    - code that can throw runs in the exception monad [exc]. *)

From Stdlib Require Import QArith Qcanon Qabs Qround.
From Stdlib Require Import Strings.Ascii Sorting.Sorted Sorting.Permutation.
From stdpp Require Import base option numbers list strings gmap sorting.

Local Open Scope string_scope.
Local Open Scope list_scope.

(** ** JavaScript numbers *)

Inductive number : Type :=
  | NaN
  | NegInf
  | PosInf
  | Fin (q : Qc).

#[global] Instance number_eq_dec : EqDecision number.
Proof. solve_decision. Defined.

Definition num_of_Z (z : Z) : number := Fin (Q2Qc (inject_Z z)).

Definition isNaN (a : number) : bool :=
  match a with NaN => true | _ => false end.

(** [a <= b] of JavaScript: false as soon as an operand is [NaN]. *)
Definition num_le (a b : number) : bool :=
  match a, b with
  | NaN, _ | _, NaN => false
  | NegInf, _ => true
  | _, NegInf => false
  | _, PosInf => true
  | PosInf, Fin _ => false
  | Fin x, Fin y => bool_decide (x <= y)%Qc
  end.

(** [a >= b]. *)
Definition num_ge (a b : number) : bool := num_le b a.

(** [a === b] on two numbers: [NaN] differs from itself. *)
Definition strict_eq (a b : number) : bool :=
  match a, b with
  | NaN, _ | _, NaN => false
  | _, _ => bool_decide (a = b)
  end.

(** SameValueZero, the key equality of [Map]: [NaN] equals itself. *)
Definition sameValueZero (a b : number) : bool := bool_decide (a = b).

(** [a - b]. *)
Definition num_sub (a b : number) : number :=
  match a, b with
  | NaN, _ | _, NaN => NaN
  | PosInf, PosInf => NaN
  | NegInf, NegInf => NaN
  | PosInf, _ => PosInf
  | NegInf, _ => NegInf
  | Fin _, PosInf => NegInf
  | Fin _, NegInf => PosInf
  | Fin x, Fin y => Fin (x - y)%Qc
  end.

(** [Math.min(a, b)] and [Math.max(a, b)]: [NaN] when an argument is. *)
Definition Math_min (a b : number) : number :=
  match a, b with
  | NaN, _ | _, NaN => NaN
  | _, _ => if num_le a b then a else b
  end.

Definition Math_max (a b : number) : number :=
  match a, b with
  | NaN, _ | _, NaN => NaN
  | _, _ => if num_le a b then b else a
  end.

(** Is a comparator's result [> 0]?  [Array.prototype.sort] reads a [NaN]
    result as [+0]. *)
Definition is_positive (v : number) : bool :=
  match v with
  | PosInf => true
  | Fin q => bool_decide (0 < q)%Qc
  | _ => false
  end.

(** [x.toFixed(4)] read back by [parseFloat]: the decimal with four
    fractional digits nearest to [x], ties away from zero; [NaN] and the
    infinities print as their names and parse back to themselves.  (The
    source then takes the double nearest to that decimal; the embedding keeps
    the decimal.) *)
Definition round4_Q (q : Q) : Q :=
  let scaled := (Qabs q * 10000)%Q in
  let n := Qfloor (scaled + (1 # 2))%Q in
  ((if Qle_bool 0 q then n else - n)%Z # 10000)%Q.

Definition parseFloat_toFixed4 (x : number) : number :=
  match x with
  | Fin q => Fin (Q2Qc (round4_Q q))
  | _ => x
  end.

(** [parseFloat(s)]: leading white space is skipped, then the longest prefix
    that is a decimal literal (optional sign, [Infinity] or digits with an
    optional fraction and an optional exponent) is read; [NaN] when there is
    none.  The value is the literal's exact decimal value. *)
Definition is_white_space (c : ascii) : bool :=
  let n := nat_of_ascii c in
  (n =? 32)%nat || ((9 <=? n)%nat && (n <=? 13)%nat).

Definition digit_of (c : ascii) : option Z :=
  let n := nat_of_ascii c in
  if ((48 <=? n)%nat && (n <=? 57)%nat)%bool then Some (Z.of_nat (n - 48)) else None.

Fixpoint skip_white_space (s : string) : string :=
  match s with
  | String c s' => if is_white_space c then skip_white_space s' else s
  | EmptyString => s
  end.

(** Reads a run of digits: its value (after [acc]), its length, the rest. *)
Fixpoint read_digits (s : string) (acc : Z) (len : nat) : Z * nat * string :=
  match s with
  | String c s' =>
      match digit_of c with
      | Some d => read_digits s' (10 * acc + d)%Z (S len)
      | None => (acc, len, s)
      end
  | EmptyString => (acc, len, s)
  end.

Definition read_sign (s : string) : bool * string :=
  match s with
  | String "-" s' => (true, s')
  | String "+" s' => (false, s')
  | _ => (false, s)
  end.

Definition read_exponent (s : string) : Z :=
  match s with
  | String c s' =>
      if (Ascii.eqb c "e" || Ascii.eqb c "E")%bool then
        let '(neg, s'') := read_sign s' in
        let '(e, len, _) := read_digits s'' 0%Z 0%nat in
        if (len =? 0)%nat then 0%Z else if neg then (- e)%Z else e
      else 0%Z
  | EmptyString => 0%Z
  end.

Definition parseFloat (s : string) : number :=
  let '(neg, s1) := read_sign (skip_white_space s) in
  if String.prefix "Infinity" s1 then (if neg then NegInf else PosInf)
  else
    let '(ip, ni, s2) := read_digits s1 0%Z 0%nat in
    let '(fp, nf, s3) :=
      match s2 with
      | String "." s' => read_digits s' 0%Z 0%nat
      | _ => (0%Z, 0%nat, s2)
      end in
    if (ni + nf =? 0)%nat then NaN
    else
      let mantissa := (inject_Z ip + inject_Z fp / inject_Z (10 ^ Z.of_nat nf))%Q in
      let scaled := (mantissa * Qpower (inject_Z 10) (read_exponent s3))%Q in
      Fin (Q2Qc (if neg then - scaled else scaled)%Q).

(** ** Data model *)

(** [DataPoint]: [{ depth?: number; age?: number; [key: string]: number }]. *)
Abbreviation DataPoint := (gmap string number).

Definition depth (dp : DataPoint) : option number := dp !! "depth".
Definition age (dp : DataPoint) : option number := dp !! "age".

(** The object spread [{...old, ...new}]: the keys of [new] win. *)
Definition spread (old new : DataPoint) : DataPoint := new ∪ old.

(** [{...dp, age: v}] with [v] a number or [undefined]. *)
Definition with_age (dp : DataPoint) (v : option number) : DataPoint :=
  match v with
  | Some a => <["age" := a]> dp
  | None => delete "age" dp
  end.

(** [Section] of the application: the identifier, the name, the data-point
    series and the lab analysis are the fields the modelled code names; every
    other field (epoch, age range, lithology, ...) travels in [metadata]. *)
Record SectionRec : Type := mkSection {
  id : string;
  core_id : string;
  name : string;
  dataPoints : list DataPoint;
  labAnalysis : option (gmap string number);
  metadata : gmap string string;
}.

#[global] Instance SectionRec_eq_dec : EqDecision SectionRec.
Proof. solve_decision. Defined.

(** [{ ...section, dataPoints: dps }]. *)
Definition with_dataPoints (s : SectionRec) (dps : list DataPoint) : SectionRec :=
  {| id := id s; core_id := core_id s; name := name s; dataPoints := dps;
     labAnalysis := labAnalysis s; metadata := metadata s |}.

Record TiePoint : Type := mkTiePoint {
  sectionId : string;
  tp_depth : number;
  tp_age : number;
}.

(** A bound of a splice interval as the component stores it: a number,
    [null] (cleared, the initial state), or no key at all (the interval
    object was created by the first edit of the other bound). *)
Inductive bound : Type :=
  | Absent
  | Null
  | Num (n : number).

Record SpliceInterval : Type := mkInterval {
  iv_sectionId : option string;
  startAge : bound;
  endAge : bound;
}.

Inductive bound_field : Type := StartAge | EndAge.

#[global] Instance bound_eq_dec : EqDecision bound.
Proof. solve_decision. Defined.

#[global] Instance SpliceInterval_eq_dec : EqDecision SpliceInterval.
Proof. solve_decision. Defined.

(** ** JSON values and exceptions *)

(** What [JSON.parse] returns.  An object is the list of its entries, each
    key once. *)
#[warnings="-register-all"]
Inductive json : Type :=
  | JNull
  | JBool (b : bool)
  | JNum (n : number)
  | JStr (s : string)
  | JArr (items : list json)
  | JObj (fields : list (string * json)).

(** A JavaScript value read from a parsed response: [None] is [undefined]. *)
Definition jsval : Type := option json.

Inductive js_error : Type :=
  | RequestError     (* the request to the service rejected *)
  | SyntaxError      (* JSON.parse threw *)
  | TypeError.       (* a property of null or undefined was read, or a
                        non-function was called *)

#[global] Instance js_error_eq_dec : EqDecision js_error.
Proof. solve_decision. Defined.

Definition exc (A : Type) : Type := js_error + A.

Definition ret {A} (a : A) : exc A := inr a.
Definition throw {A} (e : js_error) : exc A := inl e.
Definition bind {A B} (m : exc A) (k : A -> exc B) : exc B :=
  match m with
  | inl e => inl e
  | inr a => k a
  end.

Notation "x <- m ;; k" := (bind m (fun x => k))
  (at level 100, m at next level, right associativity).

(** [items.map(f)] when [f] may throw: stops at the first exception. *)
Fixpoint map_exc {A B} (f : A -> exc B) (l : list A) : exc (list B) :=
  match l with
  | [] => ret []
  | a :: l' => b <- f a ;; bs <- map_exc f l' ;; ret (b :: bs)
  end.

Fixpoint assoc (k : string) (fields : list (string * json)) : jsval :=
  match fields with
  | [] => None
  | (k', v) :: rest => if String.eqb k' k then Some v else assoc k rest
  end.

(** [v.k] for a key that no prototype defines: a [TypeError] on [null] and
    [undefined], the field of an object, [undefined] on anything else. *)
Definition get_prop (v : jsval) (k : string) : exc jsval :=
  match v with
  | None | Some JNull => throw TypeError
  | Some (JObj fields) => ret (assoc k fields)
  | Some _ => ret None
  end.

(** ** [Map] *)

(** A [Map] is the list of its entries in insertion order; no two keys of it
    are equal for the key equality [same]. *)
Section JSMap.
Context {K V : Type} (same : K -> K -> bool).

Fixpoint Map_set (k : K) (v : V) (m : list (K * V)) : list (K * V) :=
  match m with
  | [] => [(k, v)]
  | (k', v') :: m' =>
      if same k' k then (k', v) :: m' else (k', v') :: Map_set k v m'
  end.

Fixpoint Map_get (k : K) (m : list (K * V)) : option V :=
  match m with
  | [] => None
  | (k', v') :: m' => if same k' k then Some v' else Map_get k m'
  end.

(** [new Map(entries)]. *)
Definition Map_new (entries : list (K * V)) : list (K * V) :=
  fold_left (fun m e => Map_set (fst e) (snd e) m) entries [].

Definition Map_values (m : list (K * V)) : list V := map snd m.

(** The value of the last entry of a list whose key is [k]. *)
Fixpoint last_entry (k : K) (entries : list (K * V)) : option V :=
  match entries with
  | [] => None
  | (k', v) :: rest =>
      match last_entry k rest with
      | Some later => Some later
      | None => if same k' k then Some v else None
      end
  end.
End JSMap.

(** SameValueZero between a key read from the response and a record's
    [depth] (a number or [undefined]).  Strings, booleans and [null] never
    equal a number; an object or array key is a fresh object, equal to nothing
    else. *)
Definition same_key (a b : jsval) : bool :=
  match a, b with
  | None, None => true
  | Some (JNum x), Some (JNum y) => sameValueZero x y
  | Some JNull, Some JNull => true
  | Some (JBool x), Some (JBool y) => Bool.eqb x y
  | Some (JStr x), Some (JStr y) => String.eqb x y
  | _, _ => false
  end.

Definition same_depth (a b : option number) : bool := bool_decide (a = b).

(** ** [Array.prototype.sort] *)

(** The sort is stable, so for a consistent comparator the result is the one
    of a stable insertion sort: an element goes before the first element it
    does not compare greater than. *)
Section Sort.
Context {A : Type} (cmp : A -> A -> number).

Fixpoint insert_by (x : A) (l : list A) : list A :=
  match l with
  | [] => [x]
  | y :: l' => if is_positive (cmp x y) then y :: insert_by x l' else x :: l
  end.

Definition sort_by (l : list A) : list A := foldr insert_by [] l.
End Sort.

(** The comparator [(a, b) => key(a) - key(b)], and the order it sorts by. *)
Definition by_key {A} (key : A -> number) (a b : A) : number :=
  num_sub (key a) (key b).

Definition key_le {A} (key : A -> number) (a b : A) : Prop :=
  num_le (key a) (key b) = true.

(** ** [generateAgeModel] (services/geminiService.ts) *)

(** The lean copy of the data that goes into the prompt: per section the
    identifier, the name and the depths only; the tie-points as they are. *)
Record PromptSection : Type := mkPromptSection {
  ps_id : string;
  ps_name : string;
  ps_depths : list (option number);
}.

Record PromptData : Type := mkPromptData {
  pd_sections : list PromptSection;
  pd_tiePoints : list TiePoint;
}.

Definition prompt_section (s : SectionRec) : PromptSection :=
  {| ps_id := id s; ps_name := name s; ps_depths := map depth (dataPoints s) |}.

Definition promptData (sections : list SectionRec) (tiePoints : list TiePoint)
  : PromptData :=
  {| pd_sections := map prompt_section sections;
     pd_tiePoints :=
       map (fun tp => {| sectionId := sectionId tp; tp_depth := tp_depth tp;
                         tp_age := tp_age tp |}) tiePoints |}.

(** What one call of [ai.models.generateContent] followed by
    [JSON.parse(result.text)] comes to: the request rejects, the text is not
    JSON, or a value is parsed.  The service is outside the program: a call is
    given as the function from the prompt to this outcome. *)
Inductive delegate_reply : Type :=
  | RequestFailed
  | NotJson
  | Parsed (jsonResponse : json).

Inductive age_model_error : Type :=
  | ApiKeyNotConfigured                 (* thrown before the [try] *)
  | AgeModelError (cause : js_error).   (* rethrown by the [catch] *)

#[global] Instance age_model_error_eq_dec : EqDecision age_model_error.
Proof. solve_decision. Defined.

(** [calibratedSectionsFromAI.find(cs => cs.id === originalSection.id)]. *)
Fixpoint find_calibrated (items : list json) (sid : string) : exc jsval :=
  match items with
  | [] => ret None
  | cs :: rest =>
      i <- get_prop (Some cs) "id" ;;
      match i with
      | Some (JStr s) =>
          if String.eqb s sid then ret (Some cs) else find_calibrated rest sid
      | _ => find_calibrated rest sid
      end
  end.

(** [x.find(...)] and [x.map(...)] exist on arrays only; calling them on
    anything else throws. *)
Definition as_array (v : jsval) : exc (list json) :=
  match v with
  | Some (JArr items) => ret items
  | _ => throw TypeError
  end.

(** [calibratedData.dataPoints.map(dp => [dp.depth, dp.age])]. *)
Definition age_entries (calibratedData : json) : exc (list (jsval * jsval)) :=
  dps <- get_prop (Some calibratedData) "dataPoints" ;;
  items <- as_array dps ;;
  map_exc (fun dp =>
             d <- get_prop (Some dp) "depth" ;;
             a <- get_prop (Some dp) "age" ;;
             ret (d, a)) items.

Definition depth_key (dp : DataPoint) : jsval :=
  match depth dp with
  | Some n => Some (JNum n)
  | None => None
  end.

(** The body of [originalSection.dataPoints.map(dp => ...)]: the age is kept
    when it is a number (not [undefined], not [null], [typeof] number), and
    is [undefined] otherwise. *)
Definition update_point (ageMap : list (jsval * jsval)) (dp : DataPoint) : DataPoint :=
  let calculatedAge := Map_get same_key (depth_key dp) ageMap in
  with_age dp
    match calculatedAge with
    | Some (Some (JNum a)) => Some (parseFloat_toFixed4 a)
    | _ => None
    end.

(** The body of [sections.map(originalSection => ...)]. *)
Definition merge_section (calibratedSectionsFromAI : jsval) (originalSection : SectionRec)
  : exc SectionRec :=
  items <- as_array calibratedSectionsFromAI ;;
  calibratedData <- find_calibrated items (id originalSection) ;;
  match calibratedData with
  | Some cd =>
      entries <- age_entries cd ;;
      let ageMap := Map_new same_key entries in
      ret (with_dataPoints originalSection
             (map (update_point ageMap) (dataPoints originalSection)))
  | None => ret originalSection
  end.

Definition generateAgeModel (API_KEY : bool)
    (generateContent : PromptData -> delegate_reply)
    (sections : list SectionRec) (tiePoints : list TiePoint)
  : age_model_error + list SectionRec :=
  if negb API_KEY then inl ApiKeyNotConfigured
  else
    let attempt : exc (list SectionRec) :=
      match generateContent (promptData sections tiePoints) with
      | RequestFailed => throw RequestError
      | NotJson => throw SyntaxError
      | Parsed jsonResponse =>
          calibratedSectionsFromAI <- get_prop (Some jsonResponse) "calibratedSections" ;;
          map_exc (merge_section calibratedSectionsFromAI) sections
      end in
    match attempt with
    | inl e => inl (AgeModelError e)
    | inr finalSections => inr finalSections
    end.

(** ** [CoreSynthesisView] (second half of components/DataInputManager.tsx) *)

(** [handleGenerateAgeModel]: the new value of the parent's
    [calibratedSections] state ([onCalibratedDataChange] is its setter); the
    toast, the error text and the loading flag are left out. *)
Definition handleGenerateAgeModel (API_KEY : bool)
    (generateContent : PromptData -> delegate_reply)
    (sections : list SectionRec) (tiePoints : list TiePoint)
    (calibratedSections : option (list SectionRec))
  : option (list SectionRec) :=
  if (length tiePoints <? 2)%nat then calibratedSections
  else
    match generateAgeModel API_KEY generateContent sections tiePoints with
    | inr result => Some result
    | inl _ => calibratedSections
    end.

Definition set_bound (iv : SpliceInterval) (type : bound_field) (b : bound)
  : SpliceInterval :=
  match type with
  | StartAge => {| iv_sectionId := iv_sectionId iv; startAge := b; endAge := endAge iv |}
  | EndAge => {| iv_sectionId := iv_sectionId iv; startAge := startAge iv; endAge := b |}
  end.

Definition get_bound (iv : SpliceInterval) (type : bound_field) : bound :=
  match type with
  | StartAge => startAge iv
  | EndAge => endAge iv
  end.

(** [handleSpliceIntervalChange]: [{...prev[sectionId], [type]: numValue}]
    spreads nothing when the section has no interval yet. *)
Definition handleSpliceIntervalChange (prev : gmap string SpliceInterval)
    (sectionId : string) (type : bound_field) (value : string)
  : gmap string SpliceInterval :=
  let numValue := if String.eqb value "" then Null else Num (parseFloat value) in
  let old := default {| iv_sectionId := None; startAge := Absent; endAge := Absent |}
                     (prev !! sectionId) in
  <[sectionId := set_bound old type numValue]> prev.

(** [ToNumber] of a bound handed to [Math.min] and [Math.max]. *)
Definition bound_to_number (b : bound) : number :=
  match b with
  | Absent => NaN
  | Null => num_of_Z 0
  | Num n => n
  end.

Definition not_null (b : bound) : bool :=
  match b with Null => false | _ => true end.

(** The points one section adds to [allPoints]. *)
Definition splice_of_section (spliceIntervals : gmap string SpliceInterval)
    (section : SectionRec) : list DataPoint :=
  match spliceIntervals !! id section with
  | Some interval =>
      if not_null (startAge interval) && not_null (endAge interval) then
        let start := Math_min (bound_to_number (startAge interval))
                              (bound_to_number (endAge interval)) in
        let end_ := Math_max (bound_to_number (startAge interval))
                             (bound_to_number (endAge interval)) in
        List.filter (fun dp =>
                       match age dp with
                       | Some a => num_ge a start && num_le a end_
                       | None => false
                       end) (dataPoints section)
      else []
  | None => []
  end.

(** [a.age as number]: [undefined] becomes [NaN] under the subtraction. *)
Definition age_number (dp : DataPoint) : number := default NaN (age dp).

Definition compositeSplice (calibratedSections : option (list SectionRec))
    (spliceIntervals : gmap string SpliceInterval) : list DataPoint :=
  match calibratedSections with
  | None => []
  | Some sections =>
      let allPoints := flat_map (splice_of_section spliceIntervals) sections in
      sort_by (fun a b => num_sub (age_number a) (age_number b)) allPoints
  end.

(** ** [DataInputManager] (components/DataInputManager.tsx) *)

(** [array.findIndex(p)]: [None] stands for [-1]. *)
Fixpoint findIndex {A} (p : A -> bool) (l : list A) : option nat :=
  match l with
  | [] => None
  | x :: l' => if p x then Some 0%nat else S <$> findIndex p l'
  end.

(** [dp.depth === depthValue]: [undefined] is not a number. *)
Definition depth_is (depthValue : number) (dp : DataPoint) : bool :=
  match depth dp with
  | Some d => strict_eq d depthValue
  | None => false
  end.

(** [a.depth || 0]: [undefined], [NaN] and zero are falsy. *)
Definition depth_or_zero (dp : DataPoint) : number :=
  match depth dp with
  | Some NaN | None => num_of_Z 0
  | Some d => d
  end.

Definition by_depth (a b : DataPoint) : number :=
  num_sub (depth_or_zero a) (depth_or_zero b).

(** A proxy field of the form: skipped when empty or not a number. *)
Definition parse_proxy (raw : string) : option number :=
  if String.eqb raw "" then None
  else let numValue := parseFloat raw in
       if isNaN numValue then None else Some numValue.

(** [handleAddDataPoint]: the section handed to [onUpdateSection], or [None]
    when the form is refused with an error status. *)
Definition handleAddDataPoint (section : SectionRec) (formState : gmap string string)
  : option SectionRec :=
  let depthValue := from_option parseFloat NaN (formState !! "depth") in
  if isNaN depthValue then None
  else
    let proxies : DataPoint := omap parse_proxy (delete "depth" formState) in
    let newPointData : DataPoint := <["depth" := depthValue]> proxies in
    if bool_decide (proxies = ∅) then None
    else
      let newDataPoints :=
        match findIndex (depth_is depthValue) (dataPoints section) with
        | Some existingPointIndex =>
            match dataPoints section !! existingPointIndex with
            | Some existing =>
                <[existingPointIndex := spread existing newPointData]> (dataPoints section)
            | None => dataPoints section
            end
        | None => dataPoints section ++ [newPointData]
        end in
      Some {| id := id section; core_id := core_id section; name := name section;
              dataPoints := sort_by by_depth newDataPoints;
              labAnalysis := Some ∅; metadata := metadata section |}.

(** One step of [dataPoints.forEach(p => ...)] over [existingPointsMap]. *)
Definition merge_point (m : list (option number * DataPoint)) (p : DataPoint)
  : list (option number * DataPoint) :=
  match depth p with
  | Some d =>
      Map_set same_depth (Some d)
        (spread (default ∅ (Map_get same_depth (Some d) m)) p) m
  | None => m
  end.

(** [handleConfirmMapping], from the parsed rows on: [rows] are the objects
    built from the CSV rows under the confirmed header mapping.  [None] when
    nothing valid was parsed (error status, no update). *)
Definition handleConfirmMapping (section : SectionRec) (rows : list DataPoint)
  : option SectionRec :=
  let dataPoints' :=
    List.filter (fun dp => negb (bool_decide (dp = ∅)) &&
                           (bool_decide (is_Some (depth dp)) || bool_decide (is_Some (age dp))))
                rows in
  if (length dataPoints' =? 0)%nat then None
  else
    let existingPointsMap :=
      Map_new same_depth (map (fun p => (depth p, p)) (dataPoints section)) in
    let merged := fold_left merge_point dataPoints' existingPointsMap in
    let mergedPoints := sort_by by_depth (Map_values merged) in
    Some (with_dataPoints section mergedPoints).

(** ** The interpolation the delegate is asked for *)

(** Modelled from the spec: the Interpolation Engine of the specification
    (section 4.1).  The repository has no such function: [generateAgeModel]
    asks the external service for it in its system instruction.  Tie-points
    are (depth, age) pairs of finite numbers. *)
Definition lerp (p0 p1 : Qc * Qc) (d : Qc) : Qc :=
  (snd p0 + (snd p1 - snd p0) * (d - fst p0) / (fst p1 - fst p0))%Qc.

(** Modelled from the spec: steps 1 and 3 of the engine, on tie-points sorted
    by depth: no age with fewer than two tie-points; otherwise the line of
    the first neighbouring pair whose upper depth is not below [d], which is
    the pair of the two smallest tie-points when [d] lies below all and the
    pair of the two largest when [d] lies above all. *)
Fixpoint interpolate_sorted (tps : list (Qc * Qc)) (d : Qc) : option Qc :=
  match tps with
  | p0 :: ((p1 :: rest) as tl) =>
      match rest with
      | [] => Some (lerp p0 p1 d)
      | _ => if bool_decide (d <= fst p1)%Qc then Some (lerp p0 p1 d)
             else interpolate_sorted tl d
      end
  | _ => None
  end.

(** Modelled from the spec: a tie-point as the engine takes it, its depth and
    age being finite numbers (section 6). *)
Definition finite_tie_point (tp : TiePoint) : option (Qc * Qc) :=
  match tp_depth tp, tp_age tp with
  | Fin d, Fin a => Some (d, a)
  | _, _ => None
  end.


(** Modelled from the spec: the tie-points of one section ("partitions
    tiePoints by sectionId"), when all of them are finite. *)
Definition section_tie_points (sid : string) (tiePoints : list TiePoint)
  : option (list (Qc * Qc)) :=
  mapM finite_tie_point
       (List.filter (fun tp => String.eqb (sectionId tp) sid) tiePoints).

(** Modelled from the spec: the engine on the tie-points of a section, which
    it sorts by depth (step 2); no age for a depth that is not finite. *)
Definition interpolate (sid : string) (tiePoints : list TiePoint) (d : number)
  : option number :=
  match d with
  | Fin q =>
      tps ← section_tie_points sid tiePoints;
      Fin <$> interpolate_sorted (sort_by (by_key (fun p => Fin (fst p))) tps) q
  | _ => None
  end.

(** Modelled from the spec: a delegate that honours the contract of the
    specification (section 6): for every section of the prompt it answers
    with the prompted depths, each with the age the engine computes, or with
    no age when the engine computes none. *)
Definition interpolated_point (sid : string) (tiePoints : list TiePoint)
    (d : option number) : json :=
  match d with
  | None => JObj []
  | Some n =>
      JObj (("depth", match n with Fin _ => JNum n | _ => JNull end) ::
            match interpolate sid tiePoints n with
            | Some a => [("age", JNum a)]
            | None => []
            end)
  end.

(** Modelled from the spec: the entry of such a reply for one section of the
    prompt, and the reply. *)
Definition interpolated_entry (tiePoints : list TiePoint) (ps : PromptSection) : json :=
  JObj [("id", JStr (ps_id ps));
        ("dataPoints",
         JArr (map (interpolated_point (ps_id ps) tiePoints) (ps_depths ps)))].

Definition interpolating_delegate (prompt : PromptData) : delegate_reply :=
  Parsed (JObj [("calibratedSections",
                 JArr (map (interpolated_entry (pd_tiePoints prompt))
                           (pd_sections prompt)))]).

(** ** The composite as the specification words it *)

(** "select every record whose age is defined and satisfies lo <= age <= hi",
    with [lo, hi] = [min, max] of the two bounds. *)
Definition in_window (a b : number) (dp : DataPoint) : bool :=
  match age dp with
  | Some g => num_le (Math_min a b) g && num_le g (Math_max a b)
  | None => false
  end.

(** The records a section contributes: those in the window when the section
    has an interval with both bounds set to a number, none otherwise. *)
Definition qualifying_records (intervals : gmap string SpliceInterval)
    (s : SectionRec) : list DataPoint :=
  match intervals !! id s with
  | Some iv =>
      match startAge iv, endAge iv with
      | Num a, Num b => List.filter (in_window a b) (dataPoints s)
      | _, _ => []
      end
  | None => []
  end.

(** ** The merge, read off the response *)

(** The array under [calibratedSections] of a parsed reply (empty when the
    reply has none). *)
Definition response_items (reply : delegate_reply) : list json :=
  match reply with
  | Parsed (JObj fields) =>
      match assoc "calibratedSections" fields with
      | Some (JArr items) => items
      | _ => []
      end
  | _ => []
  end.

Definition has_id (sid : string) (item : json) : bool :=
  match item with
  | JObj fields =>
      match assoc "id" fields with
      | Some (JStr s) => String.eqb s sid
      | _ => false
      end
  | _ => false
  end.

(** The entry a section is merged with: the first item of the response that
    carries the section's identifier. *)
Definition response_entry (items : list json) (sid : string) : option json :=
  List.find (has_id sid) items.

Definition entry_points (entry : json) : list json :=
  match entry with
  | JObj fields =>
      match assoc "dataPoints" fields with
      | Some (JArr pts) => pts
      | _ => []
      end
  | _ => []
  end.

Definition field_of (k : string) (pt : json) : jsval :=
  match pt with
  | JObj fields => assoc k fields
  | _ => None
  end.

Definition point_depth (pt : json) : jsval := field_of "depth" pt.
Definition point_age (pt : json) : jsval := field_of "age" pt.

(** The last data point of an entry whose depth is the key [k]. *)
Fixpoint last_point (pts : list json) (k : jsval) : option json :=
  match pts with
  | [] => None
  | pt :: rest =>
      match last_point rest k with
      | Some later => Some later
      | None => if same_key (point_depth pt) k then Some pt else None
      end
  end.

(** The age a record ends with when its section is merged with the data
    points [pts]. *)
Definition merged_age (pts : list json) (dp : DataPoint) : option number :=
  match last_point pts (depth_key dp) with
  | Some pt =>
      match point_age pt with
      | Some (JNum a) => Some (parseFloat_toFixed4 a)
      | _ => None
      end
  | None => None
  end.

(** How an output section relates to its input section, given the items of
    the response. *)
Definition calibrated_as (items : list json) (s s' : SectionRec) : Prop :=
  match response_entry items (id s) with
  | Some entry =>
      s' = with_dataPoints s
             (map (fun dp => with_age dp (merged_age (entry_points entry) dp))
                  (dataPoints s))
  | None => s' = s
  end.

(** Two records agree on every key but [age]. *)
Definition same_but_age (dp dp' : DataPoint) : Prop :=
  forall k : string, k <> "age" -> dp' !! k = dp !! k.

(** Two sections agree on everything but the ages of their records. *)
Definition same_but_ages (s s' : SectionRec) : Prop :=
  id s' = id s /\ core_id s' = core_id s /\ name s' = name s /\
  labAnalysis s' = labAnalysis s /\ metadata s' = metadata s /\
  Forall2 same_but_age (dataPoints s) (dataPoints s').

(** A record after the merge with the data points [pts]: untouched but for
    its age, which is the rounded age of the last data point at its depth,
    when that age is a number. *)
Definition age_from_last_point (pts : list json) (dp dp' : DataPoint) : Prop :=
  same_but_age dp dp' /\
  age dp' = merged_age pts dp /\
  (is_Some (age dp') <->
   exists pt a, last_point pts (depth_key dp) = Some pt /\ point_age pt = Some (JNum a)).

Definition merged_with (items : list json) (s s' : SectionRec) : Prop :=
  match response_entry items (id s) with
  | Some entry =>
      id s' = id s /\
      Forall2 (age_from_last_point (entry_points entry)) (dataPoints s) (dataPoints s')
  | None => s' = s
  end.

(** An entry the merge can read: an object whose [dataPoints] is an array
    without [null] items. *)
Definition readable_entry (entry : json) : Prop :=
  exists fields pts,
    entry = JObj fields /\ assoc "dataPoints" fields = Some (JArr pts) /\
    Forall (fun pt => pt <> JNull) pts.

(** ** Sample data *)

Definition sample_point (d : Z) : DataPoint :=
  {[ "depth" := num_of_Z d; "d18O" := num_of_Z 3 ]}.

Definition sample_aged_point (d a : Z) : DataPoint :=
  <["age" := num_of_Z a]> (sample_point d).

Definition sample_section (sid : string) (dps : list DataPoint) : SectionRec :=
  {| id := sid; core_id := "ODP-982A"; name := "Hole " +:+ sid; dataPoints := dps;
     labAnalysis := None; metadata := {[ "epoch" := "Pleistocene" ]} |}.

Definition json_point (d : Z) (a : json) : json :=
  JObj [("depth", JNum (num_of_Z d)); ("age", a)].

Definition json_entry (sid : string) (pts : list json) : json :=
  JObj [("id", JStr sid); ("dataPoints", JArr pts)].

Definition json_reply (items : list json) : delegate_reply :=
  Parsed (JObj [("calibratedSections", JArr items)]).

(** A reply that lists depth 5 twice: first with age 10, then with [null]. *)
Definition reply_depth_twice : delegate_reply :=
  json_reply [json_entry "S1" [json_point 5 (JNum (num_of_Z 10)); json_point 5 JNull]].

(** A reply with one numeric age, for depth 5 of section S1. *)
Definition reply_one_age (a : Z) : delegate_reply :=
  json_reply [json_entry "S1" [json_point 5 (JNum (num_of_Z a))]].

Definition one_tie_point : list TiePoint :=
  [{| sectionId := "S1"; tp_depth := num_of_Z 0; tp_age := num_of_Z 0 |}].

(** Section A with records at depths 15, 5 and 30, and its two tie-points
    (10, 100) and (20, 200). *)
Definition section_A : SectionRec :=
  sample_section "A" [sample_point 15; sample_point 5; sample_point 30].

Definition tie_points_A : list TiePoint :=
  [{| sectionId := "A"; tp_depth := num_of_Z 10; tp_age := num_of_Z 100 |};
   {| sectionId := "A"; tp_depth := num_of_Z 20; tp_age := num_of_Z 200 |}].



(** A reply whose first item has no [id] and whose second item carries an
    age that is a string. *)
Definition reply_off_shape : delegate_reply :=
  json_reply [JObj [("dataPoints", JArr [json_point 5 (JNum (num_of_Z 10))])];
              json_entry "S2" [json_point 5 (JStr "12")]].

(** A reply whose entry for S1 has [null] for [dataPoints]. *)
Definition reply_null_points : delegate_reply :=
  json_reply [JObj [("id", JStr "S1"); ("dataPoints", JNull)]].

(** No tie-point for S1, two for S2. *)
Definition tie_points_S2 : list TiePoint :=
  [{| sectionId := "S2"; tp_depth := num_of_Z 0; tp_age := num_of_Z 0 |};
   {| sectionId := "S2"; tp_depth := num_of_Z 100; tp_age := num_of_Z 10 |}].

(** An item of the response without a numeric age. *)
Definition ageless (pt : json) : Prop := forall a, point_age pt <> Some (JNum a).

(** ** Depth as the key of a series, as the specification words it *)

(** "an incoming record with a depth matching an existing record merges
    (field-wise overwrite) rather than duplicating": the first record with
    the depth of [p] takes the fields of [p]; without such a record, [p] is
    appended. *)
Fixpoint upsert (dps : list DataPoint) (p : DataPoint) : list DataPoint :=
  match dps with
  | [] => [p]
  | dp :: rest =>
      if bool_decide (depth dp = depth p) then spread dp p :: rest
      else dp :: upsert rest p
  end.

Definition has_depth (dp : DataPoint) : bool := bool_decide (is_Some (depth dp)).

Definition sample_form : gmap string string :=
  {[ "depth" := "5"; "delta18O" := "1.5"; "tex86" := "" ]}.

(** What [handleAddDataPoint] hands over for [sample_form] on a series with
    records at depths 9 and 5. *)
Definition sample_updated : SectionRec :=
  {| id := "S1"; core_id := "ODP-982A"; name := "Hole S1";
     dataPoints := [spread (sample_aged_point 5 7)
                      {[ "depth" := num_of_Z 5; "delta18O" := Fin (Q2Qc (3 # 2)) ]};
                    sample_point 9];
     labAnalysis := Some ∅; metadata := {[ "epoch" := "Pleistocene" ]} |}.

(** Calibrated sections A (ages 100 and 300) and B (ages 150 and 250). *)
Definition calibrated_AB : list SectionRec :=
  [sample_section "A" [sample_aged_point 1 100; sample_aged_point 2 300];
   sample_section "B" [sample_aged_point 1 150; sample_aged_point 2 250]].

Definition NegInf_bound : bound := Num NegInf.
Definition PosInf_bound : bound := Num PosInf.

Definition full_range : gmap string SpliceInterval :=
  {[ "A" := mkInterval (Some "A") (Num (num_of_Z 0)) (Num (num_of_Z 1000));
     "B" := mkInterval (Some "B") (Num (num_of_Z 1000)) (Num (num_of_Z 0)) ]}.

(** Section S1 with tie-points (0, 0) and (100, 10); section S2 with one
    tie-point. *)
Definition scenario_sections : list SectionRec :=
  [sample_section "S1" [sample_point 0; sample_point 50; sample_point 100];
   sample_section "S2" [sample_point 10; sample_point 20]].

Definition scenario_tie_points : list TiePoint :=
  [{| sectionId := "S1"; tp_depth := num_of_Z 0; tp_age := num_of_Z 0 |};
   {| sectionId := "S1"; tp_depth := num_of_Z 100; tp_age := num_of_Z 10 |};
   {| sectionId := "S2"; tp_depth := num_of_Z 10; tp_age := num_of_Z 3 |}].

(** Three CSV rows (one at the existing depth 5, one without depth, one at
    the new depth 2) and the series they give with records at 9 and 5. *)
Definition sample_rows : list DataPoint :=
  [{[ "depth" := num_of_Z 5; "tex86" := num_of_Z 1 ]};
   {[ "age" := num_of_Z 4 ]};
   {[ "depth" := num_of_Z 2 ]}].

Definition sample_merged : SectionRec :=
  sample_section "S1"
    [{[ "depth" := num_of_Z 2 ]};
     <["tex86" := num_of_Z 1]> (sample_aged_point 5 7);
     sample_point 9].

Definition other_bound (type : bound_field) : bound_field :=
  match type with
  | StartAge => EndAge
  | EndAge => StartAge
  end.

(** ** [CoreSynthesisView]: the initial splice intervals *)

(** The initial state of [spliceIntervals]:
    [Object.fromEntries(sections.map(s => [s.id, { sectionId: s.id,
    startAge: null, endAge: null }]))]; a later entry of the same key
    replaces an earlier one. *)
Definition initialSpliceIntervals (sections : list SectionRec)
  : gmap string SpliceInterval :=
  fold_left (fun acc s =>
               <[id s := {| iv_sectionId := Some (id s);
                            startAge := Null; endAge := Null |}]> acc)
            sections ∅.

(** The intervals after a series of edits of the inputs: each edit is the
    section, the bound and the text typed. *)
Definition splice_edits (edits : list (string * bound_field * string))
    (spliceIntervals : gmap string SpliceInterval) : gmap string SpliceInterval :=
  fold_left (fun prev e =>
               handleSpliceIntervalChange prev (fst (fst e)) (snd (fst e)) (snd e))
            edits spliceIntervals.

(** The bound [side] of every interval has been left alone: it is [null] or
    was never written. *)
Definition untouched (side : string -> bound_field)
    (spliceIntervals : gmap string SpliceInterval) : Prop :=
  forall sid iv, spliceIntervals !! sid = Some iv ->
    get_bound iv (side sid) = Null \/ get_bound iv (side sid) = Absent.

(** ** [MultiSectionChart] and [CoreAnalysisChart] *)

(** [xAxisKey: 'depth' | 'age']. *)
Inductive axis_key : Type := DepthAxis | AgeAxis.

Definition axis_name (xAxisKey : axis_key) : string :=
  match xAxisKey with
  | DepthAxis => "depth"
  | AgeAxis => "age"
  end.

(** [a[key] as number] under the subtraction of a comparator: [undefined]
    becomes [NaN]. *)
Definition field_number (key : string) (dp : DataPoint) : number :=
  default NaN (dp !! key).

(** [dp[xAxisKey] !== undefined && dp[proxyKey] !== undefined]. *)
Definition has_both (xKey proxyKey : string) (dp : DataPoint) : bool :=
  bool_decide (is_Some (dp !! xKey)) && bool_decide (is_Some (dp !! proxyKey)).

(** [processedSections] of [MultiSectionChart]. *)
Definition processedSections (sections : list SectionRec) (proxyKey : string)
    (xAxisKey : axis_key) : list SectionRec :=
  map (fun section =>
         with_dataPoints section
           (sort_by (by_key (field_number (axis_name xAxisKey)))
              (List.filter (has_both (axis_name xAxisKey) proxyKey)
                 (dataPoints section))))
      sections.

(** [sortedData] of [CoreAnalysisChart]: the x axis is any key. *)
Definition sortedData (points : list DataPoint) (xAxisKey : string) : list DataPoint :=
  sort_by (by_key (field_number xAxisKey)) points.

(** ** [handleConfirmMapping]: from the parsed file to the rows *)

(** A cell of a row parsed with [dynamicTyping]: [null], [undefined], a
    number, or any other value the parser yields (a string, a boolean, a
    date), given by its [String(value)]: a string is its own text. *)
Inductive cell : Type :=
  | CellNull
  | CellUndefined
  | CellNumber (value : number)
  | CellOther (text : string).

(** [text.replace(',', '.')]: the first comma only. *)
Fixpoint replace_comma (text : string) : string :=
  match text with
  | EmptyString => EmptyString
  | String c rest =>
      if Ascii.eqb c "," then String "." rest else String c (replace_comma rest)
  end.

(** One turn of [for (const header in row)]: [finalMap] is the confirmed
    mapping ([Record<string, string | null>]: [None] is [null], a header
    outside the map gives [undefined]). *)
Definition map_cell (finalMap : gmap string (option string)) (newRow : DataPoint)
    (entry : string * cell) : DataPoint :=
  match finalMap !! fst entry with
  | Some (Some mappedKey) =>
      if String.eqb mappedKey "" then newRow
      else
        match snd entry with
        | CellNull | CellUndefined => newRow
        | CellNumber value => <[mappedKey := value]> newRow
        | CellOther text =>
            if String.eqb text "" then newRow
            else
              let numValue := parseFloat (replace_comma text) in
              if isNaN numValue then newRow else <[mappedKey := numValue]> newRow
        end
  | _ => newRow
  end.

(** The body of [results.data.map((row) => ...)]: a row is the list of its
    (header, cell) entries in the order of [for ... in]. *)
Definition map_row (finalMap : gmap string (option string))
    (row : list (string * cell)) : DataPoint :=
  fold_left (map_cell finalMap) row ∅.

(** Where a field of a row object comes from. *)
Definition from_cell (finalMap : gmap string (option string))
    (row : list (string * cell)) (k : string) (v : number) : Prop :=
  exists header c,
    (header, c) ∈ row /\ finalMap !! header = Some (Some k) /\ k <> "" /\
    (c = CellNumber v \/
     exists text, c = CellOther text /\ text <> "" /\
                  v = parseFloat (replace_comma text) /\ isNaN v = false).

(** ** [CoreDashboard] (components/CoreDashboard.tsx) *)

(** [s.epoch]. *)
Definition epoch (s : SectionRec) : option string := metadata s !! "epoch".

(** [Array.from(new Set(values))]: the first occurrence of each value, in
    the order of insertion. *)
Definition Set_add {A} `{EqDecision A} (values : list A) (x : A) : list A :=
  if decide (x ∈ values) then values else values ++ [x].

Definition Set_new {A} `{EqDecision A} (values : list A) : list A :=
  fold_left Set_add values [].

Definition availableEpochs (sections : list SectionRec) : list (option string) :=
  Some "all" :: Set_new (map epoch sections).

Definition filteredSections (sections : list SectionRec) (epochFilter : string)
  : list SectionRec :=
  if String.eqb epochFilter "all" then sections
  else List.filter (fun s => bool_decide (epoch s = Some epochFilter)) sections.

(** [list.some(s => s.id === sid)] and [list.find(s => s.id === sid)]. *)
Definition some_id (sid : string) (l : list SectionRec) : bool :=
  existsb (fun s => String.eqb (id s) sid) l.

Definition find_id (sid : string) (l : list SectionRec) : option SectionRec :=
  List.find (fun s => String.eqb (id s) sid) l.

(** The effect on [filteredSections] and [selectedSection]: the selection it
    leaves.  Both tests read the selection of the render, so at most one of
    them sets a new one. *)
Definition selection_effect (filtered : list SectionRec)
    (selectedSection : option SectionRec) : option SectionRec :=
  match selectedSection with
  | Some selected =>
      if negb (some_id (id selected) filtered) then head filtered
      else Some selected
  | None =>
      if (0 <? length filtered)%nat then head filtered else None
  end.

(** The state of the component that the handlers below read and write. *)
Record Dashboard : Type := mkDashboard {
  st_sections : list SectionRec;
  st_calibratedSections : option (list SectionRec);
  st_selectedSection : option SectionRec;
  st_epochFilter : string;
  st_editingSection : option SectionRec;
}.

Definition initial_dashboard : Dashboard :=
  {| st_sections := []; st_calibratedSections := None; st_selectedSection := None;
     st_epochFilter := "all"; st_editingSection := None |}.

(** [fetchSections]: [fetched] is what [coreService.fetchSectionsForCore]
    comes to, [None] when it rejects.  The handler runs on the state it was
    created in. *)
Definition fetchSections (st : Dashboard) (fetched : option (list SectionRec))
  : Dashboard :=
  match fetched with
  | Some fetchedSections =>
      let sectionToSelect :=
        match st_editingSection st with
        | Some editing => find_id (id editing) fetchedSections
        | None =>
            match st_selectedSection st with
            | Some selected => find_id (id selected) fetchedSections
            | None => None
            end
        end in
      {| st_sections := fetchedSections;
         st_calibratedSections := None;
         st_selectedSection :=
           match sectionToSelect with
           | Some s => Some s
           | None => head fetchedSections
           end;
         st_epochFilter := st_epochFilter st;
         st_editingSection := None |}
  | None =>
      {| st_sections := st_sections st;
         st_calibratedSections := None;
         st_selectedSection := st_selectedSection st;
         st_epochFilter := st_epochFilter st;
         st_editingSection := None |}
  end.

(** [handleUpdateSectionData]: [saved] is what [coreService.updateSection]
    comes to, [None] when it rejects. *)
Definition handleUpdateSectionData (st : Dashboard) (saved : option SectionRec)
  : Dashboard :=
  match saved with
  | Some newSection =>
      {| st_sections :=
           map (fun s => if String.eqb (id s) (id newSection) then newSection else s)
               (st_sections st);
         st_calibratedSections := st_calibratedSections st;
         st_selectedSection :=
           match st_selectedSection st with
           | Some selected =>
               if String.eqb (id selected) (id newSection) then Some newSection
               else Some selected
           | None => None
           end;
         st_epochFilter := st_epochFilter st;
         st_editingSection := st_editingSection st |}
  | None => st
  end.

(** What happens to the component: the two handlers above, the two
    [select] inputs, the selection effect, the buttons that open the section
    form and the result of an age-model generation handed up by
    [CoreSynthesisView].  An event is taken as a whole, on the state of the
    last render: a handler that awaits the service runs to its end before
    the next event, so the state its closure reads is the state it updates
    (requests do not overlap). *)
Inductive dashboard_event : Type :=
  | Fetch (fetched : option (list SectionRec))
  | UpdateSectionData (saved : option SectionRec)
  | SetEpochFilter (value : string)
  | SelectSection (value : string)
  | SelectionEffect
  | EditSection
  | AddSection
  | CalibratedDataChange (calibratedSections : list SectionRec).

Definition dashboard_step (st : Dashboard) (e : dashboard_event) : Dashboard :=
  match e with
  | Fetch fetched => fetchSections st fetched
  | UpdateSectionData saved => handleUpdateSectionData st saved
  | SetEpochFilter value =>
      {| st_sections := st_sections st;
         st_calibratedSections := st_calibratedSections st;
         st_selectedSection := st_selectedSection st;
         st_epochFilter := value;
         st_editingSection := st_editingSection st |}
  | SelectSection value =>
      match find_id value (filteredSections (st_sections st) (st_epochFilter st)) with
      | Some section =>
          {| st_sections := st_sections st;
             st_calibratedSections := st_calibratedSections st;
             st_selectedSection := Some section;
             st_epochFilter := st_epochFilter st;
             st_editingSection := st_editingSection st |}
      | None => st
      end
  | SelectionEffect =>
      {| st_sections := st_sections st;
         st_calibratedSections := st_calibratedSections st;
         st_selectedSection :=
           selection_effect (filteredSections (st_sections st) (st_epochFilter st))
                            (st_selectedSection st);
         st_epochFilter := st_epochFilter st;
         st_editingSection := st_editingSection st |}
  | EditSection =>
      {| st_sections := st_sections st;
         st_calibratedSections := st_calibratedSections st;
         st_selectedSection := st_selectedSection st;
         st_epochFilter := st_epochFilter st;
         st_editingSection := st_selectedSection st |}
  | AddSection =>
      {| st_sections := st_sections st;
         st_calibratedSections := st_calibratedSections st;
         st_selectedSection := st_selectedSection st;
         st_epochFilter := st_epochFilter st;
         st_editingSection := None |}
  | CalibratedDataChange calibratedSections =>
      {| st_sections := st_sections st;
         st_calibratedSections := Some calibratedSections;
         st_selectedSection := st_selectedSection st;
         st_epochFilter := st_epochFilter st;
         st_editingSection := st_editingSection st |}
  end.

Definition dashboard_run (events : list dashboard_event) (st : Dashboard) : Dashboard :=
  fold_left dashboard_step events st.

Definition is_calibration (e : dashboard_event) : bool :=
  match e with
  | CalibratedDataChange _ => true
  | _ => false
  end.

(** The selected section is one of the loaded sections. *)
Definition selection_loaded (st : Dashboard) : Prop :=
  forall s, st_selectedSection st = Some s -> s ∈ st_sections st.

(** ** [generateSectionSummary] and the summary handler of [DashboardTab] *)

(** What the call of the service comes to: it rejects, with an [Error] of
    some message or with another value, or a text arrives.  A response
    without text makes [.replace] throw a [TypeError], an [Error] with the
    message of the engine: that is the first case. *)
Inductive summary_reply : Type :=
  | SummaryRejected (message : option string)
  | SummaryText (text : string).

(** [text.replace(/[*#]/g, '')]. *)
Fixpoint remove_markdown (text : string) : string :=
  match text with
  | EmptyString => EmptyString
  | String c rest =>
      if (Ascii.eqb c "*" || Ascii.eqb c "#")%bool then remove_markdown rest
      else String c (remove_markdown rest)
  end.

Definition generateSectionSummary (API_KEY : bool) (reply : summary_reply) : string :=
  if negb API_KEY then "Error: API key is not configured."
  else
    match reply with
    | SummaryText text => remove_markdown text
    | SummaryRejected (Some message) => "AI Summary Error: " ++ message
    | SummaryRejected None => "AI Summary Error: An unknown error occurred."
    end.

(** [{ ...section, summary: text }]. *)
Definition with_summary (section : SectionRec) (text : string) : SectionRec :=
  {| id := id section; core_id := core_id section; name := name section;
     dataPoints := dataPoints section; labAnalysis := labAnalysis section;
     metadata := <["summary" := text]> (metadata section) |}.

Definition summary (section : SectionRec) : option string :=
  metadata section !! "summary".

(** [handleGenerateSummary]: the section handed to [onUpdateSection]. *)
Definition handleGenerateSummary (API_KEY : bool) (reply : summary_reply)
    (section : SectionRec) : SectionRec :=
  with_summary section (generateSectionSummary API_KEY reply).

(** Whether a character occurs in a text. *)
Fixpoint occurs (c : ascii) (text : string) : bool :=
  match text with
  | EmptyString => false
  | String c' rest => Ascii.eqb c' c || occurs c rest
  end.

(** ** [mapCsvHeaders] (services/geminiService.ts) *)

(** [{ ...acc, [k]: v }] on the entries of an object. *)
Fixpoint set_field (k : string) (v : json) (fields : list (string * json))
  : list (string * json) :=
  match fields with
  | [] => [(k, v)]
  | (k', v') :: rest =>
      if String.eqb k' k then (k', v) :: rest else (k', v') :: set_field k v rest
  end.

(** [headers.reduce((acc, header) => ({...acc, [header]: null }), {})]. *)
Definition null_mapping (headers : list string) : json :=
  JObj (fold_left (fun acc header => set_field header JNull acc) headers []).

(** [mapCsvHeaders]: [None] when it throws (no API key); the service is
    given as the function from the headers, the only variable part of the
    prompt and of the response schema, to what the call and [JSON.parse]
    come to.  The value returned is whatever [jsonResponse.mapping] is. *)
Definition mapCsvHeaders (API_KEY : bool)
    (generateContent : list string -> delegate_reply) (headers : list string)
  : option jsval :=
  if negb API_KEY then None
  else
    let attempt : exc jsval :=
      match generateContent headers with
      | RequestFailed => throw RequestError
      | NotJson => throw SyntaxError
      | Parsed jsonResponse => get_prop (Some jsonResponse) "mapping"
      end in
    match attempt with
    | inr mapping => Some mapping
    | inl _ => Some (Some (null_mapping headers))
    end.

(** ** A series in which a depth repeats *)





(** * Properties *)

(** ** Numbers *)

Lemma num_le_trans (a b c : number) :
  num_le a b = true -> num_le b c = true -> num_le a c = true.
Proof.
  destruct a, b, c; simpl; try done.
  rewrite !bool_decide_eq_true. apply Qcle_trans.
Qed.

Lemma num_le_total (a b : number) :
  isNaN a = false -> isNaN b = false -> num_le a b = false -> num_le b a = true.
Proof.
  destruct a, b; simpl; try done.
  intros _ _. rewrite bool_decide_eq_false, bool_decide_eq_true.
  intros H. apply Qclt_le_weak. by apply Qcnot_le_lt.
Qed.

Lemma num_le_not_NaN (a b : number) :
  num_le a b = true -> isNaN a = false /\ isNaN b = false.
Proof. by destruct a, b. Qed.

(** The sign of a difference decides the order, for numbers that are not
    [NaN]. *)
Lemma is_positive_sub (a b : number) :
  isNaN a = false -> isNaN b = false ->
  is_positive (num_sub a b) = negb (num_le a b).
Proof.
  destruct a as [| | |x], b as [| | |y]; simpl; try done.
  intros _ _. unfold Qcminus.
  destruct (decide (x <= y)%Qc) as [Hle|Hnle].
  - rewrite (bool_decide_eq_true_2 _ Hle). simpl.
    apply bool_decide_eq_false_2. rewrite <- Qclt_minus_iff.
    by apply Qcle_not_lt.
  - rewrite (bool_decide_eq_false_2 _ Hnle). simpl.
    apply bool_decide_eq_true_2. rewrite <- Qclt_minus_iff.
    by apply Qcnot_le_lt.
Qed.

Lemma Math_min_comm (a b : number) : Math_min a b = Math_min b a.
Proof.
  destruct a as [| | |x], b as [| | |y]; simpl; try done.
  destruct (decide (x <= y)%Qc) as [H1|H1], (decide (y <= x)%Qc) as [H2|H2];
    rewrite ?(bool_decide_eq_true_2 _ H1), ?(bool_decide_eq_false_2 _ H1),
            ?(bool_decide_eq_true_2 _ H2), ?(bool_decide_eq_false_2 _ H2);
    try done.
  - f_equal. by apply Qcle_antisym.
  - exfalso. apply H2. apply Qclt_le_weak. by apply Qcnot_le_lt.
Qed.

Lemma Math_max_comm (a b : number) : Math_max a b = Math_max b a.
Proof.
  destruct a as [| | |x], b as [| | |y]; simpl; try done.
  destruct (decide (x <= y)%Qc) as [H1|H1], (decide (y <= x)%Qc) as [H2|H2];
    rewrite ?(bool_decide_eq_true_2 _ H1), ?(bool_decide_eq_false_2 _ H1),
            ?(bool_decide_eq_true_2 _ H2), ?(bool_decide_eq_false_2 _ H2);
    try done.
  - f_equal. by apply Qcle_antisym.
  - exfalso. apply H2. apply Qclt_le_weak. by apply Qcnot_le_lt.
Qed.

Lemma Math_min_NaN_r (a : number) : Math_min a NaN = NaN.
Proof. by destruct a. Qed.

(** ** The sort *)

Section SortFacts.
Context {A : Type} (key : A -> number).

Local Abbreviation cmp := (by_key key).
Local Abbreviation key_le := (key_le key).

Lemma insert_by_perm (x : A) (l : list A) : insert_by cmp x l ≡ₚ x :: l.
Proof.
  induction l as [|y l IH]; simpl; [done|].
  destruct (is_positive (cmp x y)); [|done].
  rewrite IH. apply Permutation_swap.
Qed.

Lemma sort_by_perm (l : list A) : sort_by cmp l ≡ₚ l.
Proof.
  induction l as [|x l IH]; simpl; [done|].
  rewrite insert_by_perm. by rewrite IH.
Qed.

Lemma insert_by_sorted (x : A) (l : list A) :
  isNaN (key x) = false -> Forall (fun y => isNaN (key y) = false) l ->
  StronglySorted key_le l -> StronglySorted key_le (insert_by cmp x l).
Proof.
  intros Hx Hl Hs. induction l as [|y l IH]; simpl.
  - repeat constructor.
  - apply Forall_cons in Hl as [Hy Hl].
    apply StronglySorted_cons in Hs as [Hyl Hs].
    unfold by_key at 1. rewrite is_positive_sub by done.
    destruct (num_le (key x) (key y)) eqn:Hxy; simpl.
    + apply StronglySorted_cons. split; [|by apply StronglySorted_cons].
      apply Forall_cons. split; [done|].
      eapply Forall_impl; [exact Hyl|].
      intros z Hz. by eapply num_le_trans.
    + apply StronglySorted_cons. split; [|by apply IH].
      rewrite insert_by_perm. apply Forall_cons. split; [|done].
      by apply num_le_total.
Qed.

Lemma sort_by_sorted (l : list A) :
  Forall (fun y => isNaN (key y) = false) l ->
  StronglySorted key_le (sort_by cmp l).
Proof.
  induction l as [|x l IH]; simpl; intros Hl.
  - constructor.
  - apply Forall_cons in Hl as [Hx Hl]. apply insert_by_sorted; [done| |by apply IH].
    by rewrite sort_by_perm.
Qed.

(** A sorted list is left as it is. *)
Lemma insert_by_head (x : A) (l : list A) :
  isNaN (key x) = false -> Forall (fun y => isNaN (key y) = false) l ->
  Forall (key_le x) l -> insert_by cmp x l = x :: l.
Proof.
  intros Hx Hl Hle. destruct l as [|y l]; simpl; [done|].
  apply Forall_cons in Hl as [Hy _]. apply Forall_cons in Hle as [Hxy _].
  unfold by_key. rewrite is_positive_sub by done. by rewrite Hxy.
Qed.

Lemma sort_by_id (l : list A) :
  Forall (fun y => isNaN (key y) = false) l ->
  StronglySorted key_le l -> sort_by cmp l = l.
Proof.
  induction l as [|x l IH]; simpl; intros Hl Hs; [done|].
  apply Forall_cons in Hl as [Hx Hl]. apply StronglySorted_cons in Hs as [Hxl Hs].
  rewrite IH by done. by apply insert_by_head.
Qed.
End SortFacts.

(** ** [parseFloat] *)

(** A string that starts with a character that is neither white space, a
    sign, a digit, a dot nor [I] is not a number. *)
Lemma parseFloat_not_a_number (c : ascii) (rest : string) :
  is_white_space c = false -> digit_of c = None ->
  c <> "+"%char -> c <> "-"%char -> c <> "."%char -> c <> "I"%char ->
  parseFloat (String c rest) = NaN.
Proof.
  intros Hws Hdigit Hplus Hminus Hdot HI. unfold parseFloat. simpl. rewrite Hws.
  destruct c as [[] [] [] [] [] [] [] []]; try done.
Qed.

(** ** The composite splice *)

Lemma filter_none {A} (p : A -> bool) (l : list A) :
  (forall x, p x = false) -> List.filter p l = [].
Proof.
  intros Hp. induction l as [|x l IH]; simpl; [done|]. by rewrite Hp.
Qed.

(** The guard and the window of the code select what the specification
    describes. *)
Lemma splice_of_section_spec (intervals : gmap string SpliceInterval) (s : SectionRec) :
  splice_of_section intervals s = qualifying_records intervals s.
Proof.
  unfold splice_of_section, qualifying_records.
  destruct (intervals !! id s) as [[osid [| |a] [| |b]]|]; simpl; try done;
    apply filter_none; intros dp; destruct (age dp) as [g|]; try done;
    by rewrite ?Math_min_NaN_r.
Qed.

Lemma qualifying_records_age (intervals : gmap string SpliceInterval) (s : SectionRec) :
  Forall (fun dp => isNaN (age_number dp) = false /\ is_Some (age dp))
         (qualifying_records intervals s).
Proof.
  unfold qualifying_records.
  destruct (intervals !! id s) as [[osid [| |a] [| |b]]|]; simpl; try by constructor.
  apply Forall_forall. intros dp Hdp.
  apply list_elem_of_In, filter_In in Hdp as [_ Hw].
  unfold in_window, age_number in *. destruct (age dp) as [g|]; [|done].
  apply andb_prop in Hw as [_ Hg]. apply num_le_not_NaN in Hg as [Hg _].
  split; [done|by eexists].
Qed.

Lemma flat_map_Forall {A B} (P : B -> Prop) (f : A -> list B) (l : list A) :
  (forall x, Forall P (f x)) -> Forall P (flat_map f l).
Proof.
  intros Hf. induction l as [|x l IH]; simpl; [constructor|].
  apply Forall_app. split; [apply Hf|apply IH].
Qed.

Lemma flat_map_ext_eq {A B} (f g : A -> list B) (l : list A) :
  (forall x, f x = g x) -> flat_map f l = flat_map g l.
Proof.
  intros Hfg. induction l as [|x l IH]; simpl; [done|]. by rewrite Hfg, IH.
Qed.

(** C4: [compositeSplice] is empty when nothing is calibrated; otherwise it
    holds exactly the records of the sections whose interval has both bounds
    set, with a defined age inside [[min, max]] of the bounds (a permutation
    of their concatenation), in ascending order of age. *)
Theorem C4_compositeSplice_selects_and_sorts
    (intervals : gmap string SpliceInterval) (sections : list SectionRec) :
  compositeSplice None intervals = [] /\
  compositeSplice (Some sections) intervals
    ≡ₚ flat_map (qualifying_records intervals) sections /\
  StronglySorted (key_le age_number) (compositeSplice (Some sections) intervals) /\
  Forall (fun dp => is_Some (age dp)) (compositeSplice (Some sections) intervals).
Proof.
  split; [done|].
  assert (Hsel : flat_map (splice_of_section intervals) sections
                 = flat_map (qualifying_records intervals) sections)
    by (apply flat_map_ext_eq, splice_of_section_spec).
  assert (Hage : Forall (fun dp => isNaN (age_number dp) = false /\ is_Some (age dp))
                        (flat_map (qualifying_records intervals) sections))
    by (apply flat_map_Forall, qualifying_records_age).
  unfold compositeSplice. rewrite Hsel.
  change (fun a b : DataPoint => num_sub (age_number a) (age_number b))
    with (by_key age_number).
  split; [apply sort_by_perm|]. split.
  - apply sort_by_sorted. eapply Forall_impl; [exact Hage|]. by intros dp [? _].
  - rewrite sort_by_perm. eapply Forall_impl; [exact Hage|]. by intros dp [_ ?].
Qed.

Lemma splice_of_section_swap (intervals : gmap string SpliceInterval)
    (sid : string) (osid : option string) (a b : bound) (s : SectionRec) :
  splice_of_section (<[sid := mkInterval osid a b]> intervals) s
  = splice_of_section (<[sid := mkInterval osid b a]> intervals) s.
Proof.
  unfold splice_of_section. destruct (decide (sid = id s)) as [->|Hne].
  - rewrite !lookup_insert_eq. simpl.
    rewrite (andb_comm (not_null a)).
    by rewrite (Math_min_comm (bound_to_number a)), (Math_max_comm (bound_to_number a)).
  - by rewrite !lookup_insert_ne.
Qed.

(** C7: an interval entered as (a, b) and the same interval entered as (b, a)
    select the same composite. *)
Theorem C7_splice_interval_order_independent
    (calibratedSections : option (list SectionRec))
    (intervals : gmap string SpliceInterval)
    (sid : string) (osid : option string) (a b : number) :
  compositeSplice calibratedSections (<[sid := mkInterval osid (Num a) (Num b)]> intervals)
  = compositeSplice calibratedSections (<[sid := mkInterval osid (Num b) (Num a)]> intervals).
Proof.
  destruct calibratedSections as [sections|]; [|done].
  unfold compositeSplice. f_equal.
  apply flat_map_ext_eq. intros s. apply splice_of_section_swap.
Qed.

Lemma splice_of_section_NaN_bound (intervals : gmap string SpliceInterval)
    (s : SectionRec) (iv : SpliceInterval) (type : bound_field) :
  intervals !! id s = Some iv -> get_bound iv type = Num NaN ->
  splice_of_section intervals s = [].
Proof.
  intros Hiv Hb. unfold splice_of_section. rewrite Hiv.
  destruct (not_null (startAge iv) && not_null (endAge iv)); [|done].
  apply filter_none. intros dp. destruct (age dp) as [g|]; [|done].
  destruct type; simpl in Hb; rewrite Hb; simpl; [done|].
  by rewrite Math_min_NaN_r.
Qed.

(** C10: a bound typed as a non-empty string that is no number is stored as
    [NaN] (nothing is raised), and the section of such an interval adds no
    record to the composite: the composite is the one of the other
    sections. *)
Theorem C10_NaN_bound_contributes_nothing
    (prev : gmap string SpliceInterval) (type : bound_field) (value : string)
    (s : SectionRec) (before after : list SectionRec) :
  value <> "" -> parseFloat value = NaN ->
  (exists iv, handleSpliceIntervalChange prev (id s) type value !! id s = Some iv /\
              get_bound iv type = Num NaN) /\
  splice_of_section (handleSpliceIntervalChange prev (id s) type value) s = [] /\
  compositeSplice (Some (before ++ s :: after))
                  (handleSpliceIntervalChange prev (id s) type value)
  = compositeSplice (Some (before ++ after))
                    (handleSpliceIntervalChange prev (id s) type value).
Proof.
  intros Hne HNaN.
  assert (Hiv : exists iv,
             handleSpliceIntervalChange prev (id s) type value !! id s = Some iv /\
             get_bound iv type = Num NaN).
  { unfold handleSpliceIntervalChange. rewrite lookup_insert_eq.
    eexists. split; [done|].
    apply String.eqb_neq in Hne. rewrite Hne, HNaN. by destruct type. }
  destruct Hiv as (iv & Hiv & Hb).
  assert (Hs : splice_of_section (handleSpliceIntervalChange prev (id s) type value) s = [])
    by (by eapply splice_of_section_NaN_bound).
  split; [by exists iv|]. split; [done|].
  unfold compositeSplice. rewrite !flat_map_app. simpl. by rewrite Hs.
Qed.

Lemma C10_NaN_bound_witness :
  "abc" <> "" /\ parseFloat "abc" = NaN /\
  compositeSplice
    (Some ([] ++ mkSection "S1" "core" "Hole A"
                    [{[ "depth" := num_of_Z 1; "age" := num_of_Z 10 ]}] None ∅ :: []))
    (handleSpliceIntervalChange
       {[ "S1" := mkInterval (Some "S1") (Num (num_of_Z 0)) Null ]} "S1" EndAge "abc")
  = [].
Proof.
  split; [done|]. split; [reflexivity|].
  refine (eq_trans
    (proj2 (proj2 (C10_NaN_bound_contributes_nothing
       {[ "S1" := mkInterval (Some "S1") (Num (num_of_Z 0)) Null ]} EndAge "abc"
       (mkSection "S1" "core" "Hole A"
          [{[ "depth" := num_of_Z 1; "age" := num_of_Z 10 ]}] None ∅)
       [] [] _ _))) _); [done|reflexivity|reflexivity].
Defined.

(** ** Exceptions *)

Lemma bind_inr {A B} (m : exc A) (k : A -> exc B) (b : B) :
  bind m k = inr b -> exists a, m = inr a /\ k a = inr b.
Proof. destruct m as [e|a]; simpl; [done|]. eauto. Qed.

Lemma map_exc_inr {A B} (f : A -> exc B) (l : list A) (out : list B) :
  map_exc f l = inr out <-> Forall2 (fun a b => f a = inr b) l out.
Proof.
  revert out. induction l as [|a l IH]; intros out; simpl.
  - unfold ret. split.
    + intros [= <-]. constructor.
    + intros H. by apply Forall2_nil_inv_l in H as ->.
  - split.
    + intros H. apply bind_inr in H as (b & Hb & H).
      apply bind_inr in H as (bs & Hbs & H). injection H as <-.
      constructor; [done|]. by apply IH.
    + intros H. apply Forall2_cons_inv_l in H as (b & bs & Hb & Hbs & ->).
      rewrite Hb. simpl. apply IH in Hbs. by rewrite Hbs.
Qed.

Lemma map_exc_ok {A B} (f : A -> exc B) (g : A -> B) (l : list A) :
  Forall (fun a => f a = inr (g a)) l -> map_exc f l = inr (map g l).
Proof.
  intros H. apply map_exc_inr. induction H; simpl; by constructor.
Qed.

(** ** [Map] *)

Section MapFacts.
Context {K V : Type} (same : K -> K -> bool).
Hypothesis same_sym : forall a b, same a b = same b a.
Hypothesis same_trans : forall a b c, same a b = true -> same b c = true -> same a c = true.

Lemma Map_get_set (k k' : K) (v : V) (m : list (K * V)) :
  Map_get same k (Map_set same k' v m) = if same k' k then Some v else Map_get same k m.
Proof.
  induction m as [|[k'' v''] m IH]; simpl; [done|].
  destruct (same k'' k') eqn:H1; simpl.
  - destruct (same k'' k) eqn:H2.
    + rewrite same_sym in H1. by rewrite (same_trans _ _ _ H1 H2).
    + destruct (same k' k) eqn:H3; [|done].
      by rewrite (same_trans _ _ _ H1 H3) in H2.
  - destruct (same k'' k) eqn:H2; [|done].
    destruct (same k' k) eqn:H3; [|done].
    rewrite same_sym in H3. by rewrite (same_trans _ _ _ H2 H3) in H1.
Qed.

Lemma Map_get_fold (k : K) (entries m : list (K * V)) :
  Map_get same k (fold_left (fun m e => Map_set same (fst e) (snd e) m) entries m)
  = match last_entry same k entries with
    | Some v => Some v
    | None => Map_get same k m
    end.
Proof.
  revert m. induction entries as [|[k' v] entries IH]; intros m; simpl; [done|].
  rewrite IH. destruct (last_entry same k entries); [done|].
  rewrite Map_get_set. by destruct (same k' k).
Qed.

(** Reading [new Map(entries)]: the last entry with the key wins. *)
Lemma Map_get_new (k : K) (entries : list (K * V)) :
  Map_get same k (Map_new same entries) = last_entry same k entries.
Proof.
  unfold Map_new. rewrite Map_get_fold. by destruct (last_entry same k entries).
Qed.
End MapFacts.

Lemma same_key_sym (a b : jsval) : same_key a b = same_key b a.
Proof.
  destruct a as [[]|], b as [[]|]; simpl; try done.
  - by destruct b, b0.
  - unfold sameValueZero. apply bool_decide_ext. naive_solver.
  - apply String.eqb_sym.
Qed.

Lemma same_key_trans (a b c : jsval) :
  same_key a b = true -> same_key b c = true -> same_key a c = true.
Proof.
  destruct a as [[]|], b as [[]|], c as [[]|]; simpl; try done.
  - rewrite !Bool.eqb_true_iff. congruence.
  - unfold sameValueZero. rewrite !bool_decide_eq_true. congruence.
  - rewrite !String.eqb_eq. congruence.
Qed.

(** ** The merge of one section *)

Lemma find_calibrated_inr (items : list json) (sid : string) (r : jsval) :
  find_calibrated items sid = inr r -> r = response_entry items sid.
Proof.
  unfold response_entry. induction items as [|cs items IH]; simpl.
  - by intros [= <-].
  - intros H. apply bind_inr in H as (i & Hi & H).
    destruct cs as [|b|n|s|l|fields]; simpl in Hi; try done;
      injection Hi as <-; simpl in *; try by apply IH.
    destruct (assoc "id" fields) as [[| | |s| |]|]; try by apply IH.
    destruct (String.eqb s sid); [by injection H as <-|by apply IH].
Qed.

Lemma find_calibrated_ok (items : list json) (sid : string) :
  Forall (fun item => item <> JNull) items ->
  find_calibrated items sid = inr (response_entry items sid).
Proof.
  unfold response_entry. induction 1 as [|cs items Hcs _ IH]; simpl; [done|].
  destruct cs as [|b|n|s|l|fields]; simpl; try done.
  destruct (assoc "id" fields) as [[| | |s| |]|]; try done.
  by destruct (String.eqb s sid).
Qed.

Lemma age_entries_inr (entry : json) (entries : list (jsval * jsval)) :
  age_entries entry = inr entries ->
  entries = map (fun pt => (point_depth pt, point_age pt)) (entry_points entry).
Proof.
  unfold age_entries. intros H.
  apply bind_inr in H as (dps & Hdps & H). apply bind_inr in H as (items & Hitems & H).
  destruct dps as [[| | | |pts|]|]; try done. injection Hitems as <-.
  assert (Hpts : entry_points entry = pts).
  { destruct entry; simpl in *; try done. injection Hdps as Hdps. by rewrite Hdps. }
  rewrite Hpts. clear Hdps Hpts. revert entries H.
  induction pts as [|pt pts IH]; intros entries H; simpl in *.
  - by injection H as <-.
  - apply bind_inr in H as ([d a] & Hda & H). apply bind_inr in H as (rest & Hrest & H).
    injection H as <-. f_equal; [|by apply IH].
    apply bind_inr in Hda as (d' & Hd & Hda). apply bind_inr in Hda as (a' & Ha & Hda).
    injection Hda as <- <-.
    destruct pt; simpl in *; try done; by injection Hd as <-; injection Ha as <-.
Qed.

Lemma age_entries_ok (fields : list (string * json)) (pts : list json) :
  assoc "dataPoints" fields = Some (JArr pts) ->
  Forall (fun pt => pt <> JNull) pts ->
  age_entries (JObj fields)
  = inr (map (fun pt => (point_depth pt, point_age pt)) pts).
Proof.
  intros Hf Hpts. unfold age_entries. simpl. rewrite Hf. simpl.
  apply map_exc_ok. eapply Forall_impl; [exact Hpts|].
  intros pt Hpt. by destruct pt.
Qed.

Lemma last_entry_points (k : jsval) (pts : list json) :
  last_entry same_key k (map (fun pt => (point_depth pt, point_age pt)) pts)
  = point_age <$> last_point pts k.
Proof.
  induction pts as [|pt pts IH]; simpl; [done|].
  rewrite IH. destruct (last_point pts k); simpl; [done|].
  by destruct (same_key (point_depth pt) k).
Qed.

Lemma update_point_spec (pts : list json) (dp : DataPoint) :
  update_point (Map_new same_key (map (fun pt => (point_depth pt, point_age pt)) pts)) dp
  = with_age dp (merged_age pts dp).
Proof.
  unfold update_point, merged_age.
  rewrite (Map_get_new same_key same_key_sym same_key_trans), last_entry_points.
  by destruct (last_point pts (depth_key dp)).
Qed.

(** What a merge that does not throw returns. *)
Lemma merge_section_inr (items : list json) (s s' : SectionRec) :
  merge_section (Some (JArr items)) s = inr s' -> calibrated_as items s s'.
Proof.
  unfold merge_section, calibrated_as. simpl. intros H.
  apply bind_inr in H as (cd & Hcd & H). apply find_calibrated_inr in Hcd as ->.
  destruct (response_entry items (id s)) as [entry|]; [|by injection H as <-].
  apply bind_inr in H as (entries & Hentries & H). injection H as <-.
  apply age_entries_inr in Hentries as ->. f_equal.
  apply map_ext. intros dp. apply update_point_spec.
Qed.

Lemma merge_section_array (cs : jsval) (s s' : SectionRec) :
  merge_section cs s = inr s' -> exists items, cs = Some (JArr items).
Proof.
  unfold merge_section. intros H. apply bind_inr in H as (items & Hitems & _).
  destruct cs as [[| | | |l|]|]; try done. eauto.
Qed.

(** A merge with a well-formed response does not throw. *)
Lemma merge_section_ok (items : list json) (s : SectionRec) :
  Forall (fun item => item <> JNull) items ->
  (forall entry, response_entry items (id s) = Some entry ->
     exists fields pts, entry = JObj fields /\
       assoc "dataPoints" fields = Some (JArr pts) /\
       Forall (fun pt => pt <> JNull) pts) ->
  exists s', merge_section (Some (JArr items)) s = inr s' /\ calibrated_as items s s'.
Proof.
  intros Hitems Hentry.
  assert (H : exists s', merge_section (Some (JArr items)) s = inr s').
  { unfold merge_section. simpl. rewrite find_calibrated_ok by done. simpl.
    destruct (response_entry items (id s)) as [entry|]; [|by eexists].
    destruct (Hentry entry eq_refl) as (fields & pts & -> & Hf & Hpts).
    rewrite (age_entries_ok _ _ Hf Hpts). simpl. by eexists. }
  destruct H as [s' H]. exists s'. split; [done|]. by apply merge_section_inr.
Qed.

(** ** [generateAgeModel] as a whole *)

Lemma generateAgeModel_inr (API_KEY : bool) (generateContent : PromptData -> delegate_reply)
    (sections : list SectionRec) (tiePoints : list TiePoint) (out : list SectionRec) :
  generateAgeModel API_KEY generateContent sections tiePoints = inr out ->
  API_KEY = true /\
  exists jsonResponse cs,
    generateContent (promptData sections tiePoints) = Parsed jsonResponse /\
    get_prop (Some jsonResponse) "calibratedSections" = inr cs /\
    Forall2 (fun s s' => merge_section cs s = inr s') sections out.
Proof.
  unfold generateAgeModel. destruct API_KEY; [|done]. cbn [negb].
  destruct (generateContent (promptData sections tiePoints)) as [| |jsonResponse]; try done.
  intros H. split; [done|]. exists jsonResponse.
  destruct (get_prop (Some jsonResponse) "calibratedSections") as [e|cs] eqn:Hcs; [done|].
  exists cs. cbn [bind] in H. split; [done|]. split; [done|].
  apply map_exc_inr.
  destruct (map_exc (merge_section cs) sections); [done|]. by injection H as <-.
Qed.

(** Every output section is its input section merged with the response. *)
Lemma generateAgeModel_calibrated (API_KEY : bool)
    (generateContent : PromptData -> delegate_reply)
    (sections : list SectionRec) (tiePoints : list TiePoint) (out : list SectionRec) :
  generateAgeModel API_KEY generateContent sections tiePoints = inr out ->
  Forall2 (calibrated_as (response_items (generateContent (promptData sections tiePoints))))
          sections out.
Proof.
  intros H. apply generateAgeModel_inr in H as (_ & resp & cs & Hreply & Hcs & Hall).
  rewrite Hreply. eapply Forall2_impl; [exact Hall|].
  intros s s' Hs. simpl in Hs.
  destruct (merge_section_array _ _ _ Hs) as [items ->].
  assert (Hitems : response_items (Parsed resp) = items).
  { destruct resp; simpl in *; try done. injection Hcs as Hcs. by rewrite Hcs. }
  rewrite Hitems. by apply merge_section_inr.
Qed.

(** ** Claims about the calibration merge *)

(** Closed goals are decided by evaluation. *)
Ltac by_evaluation :=
  first [ reflexivity
        | apply (bool_decide_eq_true_1 _); vm_compute; reflexivity ].

Lemma age_with_age (dp : DataPoint) (v : option number) : age (with_age dp v) = v.
Proof.
  unfold age, with_age. destruct v; [apply lookup_insert_eq|apply lookup_delete_eq].
Qed.

Lemma with_age_same_but_age (dp : DataPoint) (v : option number) :
  same_but_age dp (with_age dp v).
Proof.
  intros k Hk. unfold with_age.
  destruct v; [by rewrite lookup_insert_ne|by rewrite lookup_delete_ne].
Qed.

Lemma merged_age_is_Some (pts : list json) (dp : DataPoint) :
  is_Some (merged_age pts dp) <->
  exists pt a, last_point pts (depth_key dp) = Some pt /\ point_age pt = Some (JNum a).
Proof.
  unfold merged_age. split.
  - intros [v Hv]. destruct (last_point pts (depth_key dp)) as [pt|]; [|done].
    destruct (point_age pt) as [[| |a| | |]|] eqn:Ha; try done. by exists pt, a.
  - intros (pt & a & -> & ->). by eexists.
Qed.

Lemma calibrated_as_merged_with (items : list json) (s s' : SectionRec) :
  calibrated_as items s s' -> merged_with items s s'.
Proof.
  unfold calibrated_as, merged_with.
  destruct (response_entry items (id s)) as [entry|]; [|done].
  intros ->. split; [done|]. simpl. apply Forall2_fmap_r, Forall_Forall2_diag.
  apply Forall_forall. intros dp _. split; [apply with_age_same_but_age|].
  rewrite age_with_age. split; [done|apply merged_age_is_Some].
Qed.

Lemma calibrated_as_same_but_ages (items : list json) (s s' : SectionRec) :
  calibrated_as items s s' -> same_but_ages s s'.
Proof.
  unfold calibrated_as, same_but_ages.
  destruct (response_entry items (id s)) as [entry|]; intros ->; simpl.
  - repeat split; try done. apply Forall2_fmap_r, Forall_Forall2_diag.
    apply Forall_forall. intros dp _. apply with_age_same_but_age.
  - repeat split; try done. apply Forall_Forall2_diag, Forall_forall. by intros dp _ k _.
Qed.

(** C9, in the form that holds of the code: after a successful calibration, a section without an
    entry in the response is returned unchanged; a section with one (the
    first item carrying its identifier) keeps its records, each with the age
    of the last data point of that entry at the record's depth, rounded to
    four decimals, when that age is a number, and with no age otherwise. *)
Theorem C9_age_from_last_point_at_depth (API_KEY : bool)
    (generateContent : PromptData -> delegate_reply)
    (sections : list SectionRec) (tiePoints : list TiePoint) (out : list SectionRec) :
  generateAgeModel API_KEY generateContent sections tiePoints = inr out ->
  Forall2 (merged_with (response_items (generateContent (promptData sections tiePoints))))
          sections out.
Proof.
  intros H. apply generateAgeModel_calibrated in H.
  eapply Forall2_impl; [exact H|]. apply calibrated_as_merged_with.
Qed.

(** Against C9 in the words of the specification ("defined if and only if
    the response contains a data point at the record's depth whose age is a
    number"): the response may list a depth twice; the later data point
    wins, here erasing the age 7 the record had although the response holds
    the age 10 for its depth. *)
Lemma C9_counterexample_later_point_wins :
  generateAgeModel true (fun _ => reply_depth_twice)
    [sample_section "S1" [sample_aged_point 5 7]] []
  = inr [sample_section "S1" [sample_point 5]] /\
  age (sample_point 5) = None /\
  In (json_point 5 (JNum (num_of_Z 10))) (entry_points (json_entry "S1"
        [json_point 5 (JNum (num_of_Z 10)); json_point 5 JNull])) /\
  point_depth (json_point 5 (JNum (num_of_Z 10))) = depth_key (sample_aged_point 5 7).
Proof.
  split; [by_evaluation|]. split; [by_evaluation|]. split; [by left|by_evaluation].
Qed.

Lemma C9_witness :
  generateAgeModel true (fun _ => reply_one_age 10)
    [sample_section "S1" [sample_point 5]; sample_section "S2" [sample_aged_point 5 7]] []
  = inr [sample_section "S1" [sample_aged_point 5 10];
         sample_section "S2" [sample_aged_point 5 7]] /\
  Forall2 (merged_with (response_items (reply_one_age 10)))
    [sample_section "S1" [sample_point 5]; sample_section "S2" [sample_aged_point 5 7]]
    [sample_section "S1" [sample_aged_point 5 10];
     sample_section "S2" [sample_aged_point 5 7]].
Proof.
  assert (H : generateAgeModel true (fun _ => reply_one_age 10)
    [sample_section "S1" [sample_point 5]; sample_section "S2" [sample_aged_point 5 7]] []
  = inr [sample_section "S1" [sample_aged_point 5 10];
         sample_section "S2" [sample_aged_point 5 7]]) by by_evaluation.
  split; [exact H|].
  exact (C9_age_from_last_point_at_depth true (fun _ => reply_one_age 10) _ [] _ H).
Defined.

(** C5: calibration returns, for each input section in order, a section with
    the same identifier, name and metadata whose records agree with the
    input records on every key but [age]. *)
Theorem C5_calibration_changes_ages_only (API_KEY : bool)
    (generateContent : PromptData -> delegate_reply)
    (sections : list SectionRec) (tiePoints : list TiePoint) (out : list SectionRec) :
  generateAgeModel API_KEY generateContent sections tiePoints = inr out ->
  Forall2 same_but_ages sections out.
Proof.
  intros H. apply generateAgeModel_calibrated in H.
  eapply Forall2_impl; [exact H|]. apply calibrated_as_same_but_ages.
Qed.

(** C3, in the form that holds of the code: the result is determined by the key flag, the sections
    and the reply of the delegate; the tie-points reach the result through
    the reply only. *)
Theorem C3_result_determined_by_reply (API_KEY : bool)
    (generateContent1 generateContent2 : PromptData -> delegate_reply)
    (sections : list SectionRec) (tiePoints1 tiePoints2 : list TiePoint) :
  generateContent1 (promptData sections tiePoints1)
  = generateContent2 (promptData sections tiePoints2) ->
  generateAgeModel API_KEY generateContent1 sections tiePoints1
  = generateAgeModel API_KEY generateContent2 sections tiePoints2.
Proof. intros H. unfold generateAgeModel. by rewrite H. Qed.

Lemma C5_witness :
  generateAgeModel true (fun _ => reply_one_age 10)
    [sample_section "S1" [sample_point 5]; sample_section "S2" [sample_aged_point 5 7]] []
  = inr [sample_section "S1" [sample_aged_point 5 10];
         sample_section "S2" [sample_aged_point 5 7]] /\
  Forall2 same_but_ages
    [sample_section "S1" [sample_point 5]; sample_section "S2" [sample_aged_point 5 7]]
    [sample_section "S1" [sample_aged_point 5 10];
     sample_section "S2" [sample_aged_point 5 7]].
Proof.
  assert (H : generateAgeModel true (fun _ => reply_one_age 10)
    [sample_section "S1" [sample_point 5]; sample_section "S2" [sample_aged_point 5 7]] []
  = inr [sample_section "S1" [sample_aged_point 5 10];
         sample_section "S2" [sample_aged_point 5 7]]) by by_evaluation.
  split; [exact H|].
  exact (C5_calibration_changes_ages_only true (fun _ => reply_one_age 10) _ [] _ H).
Defined.

(** Against C3 in the words of the specification (the output is a function
    of the sections and the tie-points): the same sections and tie-points
    give different results under two replies of the delegate. *)
Lemma C3_counterexample_reply_decides :
  generateAgeModel true (fun _ => reply_one_age 10)
    [sample_section "S1" [sample_point 5]] one_tie_point
  <> generateAgeModel true (fun _ => reply_one_age 11)
    [sample_section "S1" [sample_point 5]] one_tie_point.
Proof. apply (bool_decide_eq_false_1 _). by vm_compute. Qed.

Lemma C3_witness :
  generateAgeModel true (fun _ => reply_one_age 10)
    [sample_section "S1" [sample_point 5]] []
  = generateAgeModel true (fun _ => reply_one_age 10)
    [sample_section "S1" [sample_point 5]] one_tie_point.
Proof.
  exact (C3_result_determined_by_reply true (fun _ => reply_one_age 10)
           (fun _ => reply_one_age 10) _ [] one_tie_point eq_refl).
Defined.

(** ** Failure of the calibration *)

Lemma age_entries_readable (entry : json) (entries : list (jsval * jsval)) :
  age_entries entry = inr entries -> readable_entry entry.
Proof.
  unfold age_entries, readable_entry. intros H.
  apply bind_inr in H as (dps & Hdps & H). apply bind_inr in H as (pts & Hpts & H).
  destruct dps as [[| | | |pts'|]|]; try done. injection Hpts as ->.
  destruct entry as [| | | | |fields]; try done. injection Hdps as Hdps.
  exists fields, pts. split; [done|]. split; [done|].
  apply map_exc_inr in H. clear Hdps. induction H as [|pt e pts es Hpt _ IH]; constructor; [|done].
  by intros ->.
Qed.

Lemma merge_section_readable (items : list json) (s s' : SectionRec) (entry : json) :
  merge_section (Some (JArr items)) s = inr s' ->
  response_entry items (id s) = Some entry -> readable_entry entry.
Proof.
  unfold merge_section. simpl. intros H Hentry.
  apply bind_inr in H as (cd & Hcd & H). apply find_calibrated_inr in Hcd as ->.
  rewrite Hentry in H. apply bind_inr in H as (entries & Hentries & _).
  by eapply age_entries_readable.
Qed.

Lemma generateAgeModel_inl_or_inr (API_KEY : bool)
    (generateContent : PromptData -> delegate_reply)
    (sections : list SectionRec) (tiePoints : list TiePoint) :
  (exists e, generateAgeModel API_KEY generateContent sections tiePoints = inl e) \/
  (exists out, generateAgeModel API_KEY generateContent sections tiePoints = inr out).
Proof.
  destruct (generateAgeModel API_KEY generateContent sections tiePoints); eauto.
Qed.

(** C6, in the form that holds of the code: the invocation fails as a whole, with an error and no
    section list, when the key is missing, the request fails, the reply is not
    JSON, the reply is [null], its [calibratedSections] is not an array (and
    there is a section to merge), or the entry of some section cannot be
    read; the caller then keeps the calibrated state it had.  When it does not
    fail it returns one section for each input section, merged with its entry
    or, without an entry, unchanged. *)
Theorem C6_calibration_fails_as_a_whole (API_KEY : bool)
    (generateContent : PromptData -> delegate_reply)
    (sections : list SectionRec) (tiePoints : list TiePoint)
    (prior : option (list SectionRec)) :
  (API_KEY = false ->
   generateAgeModel API_KEY generateContent sections tiePoints = inl ApiKeyNotConfigured) /\
  (API_KEY = true -> generateContent (promptData sections tiePoints) = RequestFailed ->
   generateAgeModel API_KEY generateContent sections tiePoints
   = inl (AgeModelError RequestError)) /\
  (API_KEY = true -> generateContent (promptData sections tiePoints) = NotJson ->
   generateAgeModel API_KEY generateContent sections tiePoints
   = inl (AgeModelError SyntaxError)) /\
  (API_KEY = true -> generateContent (promptData sections tiePoints) = Parsed JNull ->
   generateAgeModel API_KEY generateContent sections tiePoints
   = inl (AgeModelError TypeError)) /\
  (forall jsonResponse,
     sections <> [] ->
     generateContent (promptData sections tiePoints) = Parsed jsonResponse ->
     (forall items, get_prop (Some jsonResponse) "calibratedSections" <> inr (Some (JArr items))) ->
     exists e, generateAgeModel API_KEY generateContent sections tiePoints = inl e) /\
  (forall s entry,
     In s sections ->
     response_entry (response_items (generateContent (promptData sections tiePoints))) (id s)
     = Some entry ->
     ~ readable_entry entry ->
     exists e, generateAgeModel API_KEY generateContent sections tiePoints = inl e) /\
  (forall e,
     generateAgeModel API_KEY generateContent sections tiePoints = inl e ->
     handleGenerateAgeModel API_KEY generateContent sections tiePoints prior = prior) /\
  (forall out,
     generateAgeModel API_KEY generateContent sections tiePoints = inr out ->
     length out = length sections /\
     Forall2 (calibrated_as (response_items (generateContent (promptData sections tiePoints))))
             sections out).
Proof.
  repeat match goal with |- _ /\ _ => split end.
  - by intros ->.
  - intros -> H. unfold generateAgeModel. by rewrite H.
  - intros -> H. unfold generateAgeModel. by rewrite H.
  - intros -> H. unfold generateAgeModel. by rewrite H.
  - intros resp Hne Hreply Hcs.
    destruct (generateAgeModel_inl_or_inr API_KEY generateContent sections tiePoints)
      as [He|[out Hout]]; [done|]. exfalso.
    apply generateAgeModel_inr in Hout as (_ & resp' & cs & Hreply' & Hcs' & Hall).
    rewrite Hreply in Hreply'. injection Hreply' as <-.
    destruct sections as [|s sections]; [done|].
    apply Forall2_cons_inv_l in Hall as (s' & out' & Hs & _ & _).
    apply merge_section_array in Hs as [items ->]. by apply (Hcs items).
  - intros s entry Hs Hentry Hbad.
    destruct (generateAgeModel_inl_or_inr API_KEY generateContent sections tiePoints)
      as [He|[out Hout]]; [done|]. exfalso. apply Hbad.
    apply generateAgeModel_inr in Hout as (_ & resp & cs & Hreply & Hcs & Hall).
    rewrite Hreply in Hentry.
    apply list_elem_of_In, list_elem_of_lookup in Hs as [i Hi].
    destruct (Forall2_lookup_l _ _ _ _ _ Hall Hi) as (s' & _ & Hm).
    destruct (merge_section_array _ _ _ Hm) as [items ->].
    assert (Hitems : response_items (Parsed resp) = items).
    { destruct resp; simpl in *; try done. injection Hcs as Hcs. by rewrite Hcs. }
    rewrite Hitems in Hentry. by eapply merge_section_readable.
  - intros e He. unfold handleGenerateAgeModel. rewrite He. by destruct (_ <? _)%nat.
  - intros out Hout. apply generateAgeModel_calibrated in Hout.
    split; [symmetry; by eapply Forall2_length|done].
Qed.

(** ** The interpolation engine of the specification *)





Lemma interpolate_sorted_few (tps : list (Qc * Qc)) (d : Qc) :
  (length tps < 2)%nat -> interpolate_sorted tps d = None.
Proof. destruct tps as [|p0 [|p1 rest]]; simpl; try done. lia. Qed.








Lemma interpolate_few (sid : string) (tiePoints : list TiePoint) (d : number) :
  (length (List.filter (fun tp => String.eqb (sectionId tp) sid) tiePoints) < 2)%nat ->
  interpolate sid tiePoints d = None.
Proof.
  intros Hlen. unfold interpolate. destruct d as [| | |q]; try done.
  unfold section_tie_points.
  destruct (mapM finite_tie_point _) as [anchors|] eqn:Hanchors; [|done].
  cbn [mbind option_bind]. apply length_mapM in Hanchors.
  rewrite interpolate_sorted_few; [done|].
  rewrite (Permutation_length (sort_by_perm _ anchors)). lia.
Qed.

(** ** Calibration with a delegate that interpolates *)

Lemma promptData_tiePoints (sections : list SectionRec) (tiePoints : list TiePoint) :
  pd_tiePoints (promptData sections tiePoints) = tiePoints.
Proof.
  simpl. induction tiePoints as [|[sid d a] tps IH]; simpl; [done|]. by rewrite IH.
Qed.

Lemma response_items_interpolating (sections : list SectionRec) (tiePoints : list TiePoint) :
  response_items (interpolating_delegate (promptData sections tiePoints))
  = map (fun s => interpolated_entry tiePoints (prompt_section s)) sections.
Proof.
  unfold interpolating_delegate. rewrite promptData_tiePoints. simpl.
  by rewrite map_map.
Qed.

Lemma response_entry_interpolating (sections : list SectionRec)
    (tiePoints : list TiePoint) (sid : string) :
  response_entry (map (fun s => interpolated_entry tiePoints (prompt_section s)) sections) sid
  = (fun s => interpolated_entry tiePoints (prompt_section s))
      <$> List.find (fun s => String.eqb (id s) sid) sections.
Proof.
  unfold response_entry. induction sections as [|s sections IH]; simpl; [done|].
  by destruct (String.eqb (id s) sid).
Qed.


Lemma find_same_id (sections : list SectionRec) (s : SectionRec) :
  In s sections ->
  exists s0, List.find (fun s0 => String.eqb (id s0) (id s)) sections = Some s0 /\
             id s0 = id s.
Proof.
  intros Hs. destruct (List.find _ sections) as [s0|] eqn:Hfind.
  - exists s0. split; [done|]. apply find_some in Hfind as [_ Heq].
    by apply String.eqb_eq.
  - exfalso. apply (find_none _ _ Hfind) in Hs. by rewrite String.eqb_refl in Hs.
Qed.

Lemma interpolated_point_not_null (sid : string) (tiePoints : list TiePoint)
    (d : option number) : interpolated_point sid tiePoints d <> JNull.
Proof. by destruct d. Qed.

Lemma interpolated_entry_readable (tiePoints : list TiePoint) (ps : PromptSection) :
  readable_entry (interpolated_entry tiePoints ps).
Proof.
  eexists _, _. split; [done|]. split; [done|].
  apply Forall_forall. intros pt Hpt.
  apply list_elem_of_fmap in Hpt as (d & -> & _). apply interpolated_point_not_null.
Qed.

Lemma map_exc_total {A B} (f : A -> exc B) (l : list A) :
  Forall (fun a => exists b, f a = inr b) l -> exists out, map_exc f l = inr out.
Proof.
  induction 1 as [|a l [b Hb] _ [out IH]]; simpl; [by eexists|].
  rewrite Hb. simpl. rewrite IH. simpl. by eexists.
Qed.

(** With the interpolating delegate, the calibration does not fail. *)
Lemma generateAgeModel_interpolating (sections : list SectionRec)
    (tiePoints : list TiePoint) :
  exists out,
    generateAgeModel true interpolating_delegate sections tiePoints = inr out /\
    Forall2 (calibrated_as
               (map (fun s => interpolated_entry tiePoints (prompt_section s)) sections))
            sections out.
Proof.
  assert (H : exists out,
             generateAgeModel true interpolating_delegate sections tiePoints = inr out).
  { unfold generateAgeModel. cbn [negb].
    pose proof (response_items_interpolating sections tiePoints) as Hitems.
    unfold interpolating_delegate in *. simpl in Hitems. cbn [get_prop assoc String.eqb].
    simpl. rewrite Hitems.
    destruct (map_exc_total
      (merge_section (Some (JArr (map (fun s => interpolated_entry tiePoints (prompt_section s))
                                      sections)))) sections) as [out Hout].
    - apply Forall_forall. intros s _.
      destruct (merge_section_ok
        (map (fun s => interpolated_entry tiePoints (prompt_section s)) sections) s)
        as (s' & Hs' & _); [| |by eexists].
      + apply Forall_forall. intros item Hitem.
        by apply list_elem_of_fmap in Hitem as (s0 & -> & _).
      + intros entry Hentry. rewrite response_entry_interpolating in Hentry.
        destruct (List.find _ sections) as [s0|]; [|done]. injection Hentry as <-.
        apply interpolated_entry_readable.
    - rewrite Hout. by eexists. }
  destruct H as [out H]. exists out. split; [done|].
  apply generateAgeModel_calibrated in H.
  by rewrite response_items_interpolating in H.
Qed.

Lemma last_point_Some (pts : list json) (k : jsval) (pt : json) :
  last_point pts k = Some pt -> pt ∈ pts /\ same_key (point_depth pt) k = true.
Proof.
  induction pts as [|pt0 pts IH]; simpl; [done|].
  destruct (last_point pts k) as [later|].
  - intros [= <-]. destruct (IH eq_refl) as [Hin Hk]. split; [by right|done].
  - destruct (same_key (point_depth pt0) k) eqn:Hk; [|done].
    intros [= <-]. split; [by left|done].
Qed.



Lemma merged_age_none (pts : list json) (dp : DataPoint) :
  Forall (fun pt => forall a, point_age pt <> Some (JNum a)) pts ->
  merged_age pts dp = None.
Proof.
  intros Hpts. unfold merged_age.
  destruct (last_point pts (depth_key dp)) as [pt|] eqn:Hpt; [|done].
  apply last_point_Some in Hpt as [Hin _].
  rewrite Forall_forall in Hpts. specialize (Hpts pt Hin).
  destruct (point_age pt) as [[| |a| | |]|]; try done. by destruct (Hpts a).
Qed.




(** With the tie-points (10, 100) and (20, 200), the records at depths 15, 5
    and 30 receive the ages 150, 50 and 300 from the interpolating
    delegate. *)
Example calibration_P2_P3 :
  generateAgeModel true interpolating_delegate [section_A] tie_points_A
  = inr [sample_section "A" [sample_aged_point 15 150; sample_aged_point 5 50;
                             sample_aged_point 30 300]].
Proof. by_evaluation. Qed.


(** ** Sections with fewer than two tie-points *)

(** C2, in the form that holds of the code: the caller does not start a calibration with fewer than
    two tie-points in all.  A calibration does not look at the tie-points of
    a section: the records of a section end without age when the entry of
    the section in the reply lists no numeric age, as a delegate that
    interpolates does for every section with fewer than two tie-points. *)
Theorem C2_no_age_unless_the_reply_lists_one (API_KEY : bool)
    (generateContent : PromptData -> delegate_reply)
    (sections : list SectionRec) (tiePoints : list TiePoint)
    (prior : option (list SectionRec)) :
  ((length tiePoints < 2)%nat ->
   handleGenerateAgeModel API_KEY generateContent sections tiePoints prior = prior) /\
  (forall out i s s' entry,
     generateAgeModel API_KEY generateContent sections tiePoints = inr out ->
     sections !! i = Some s -> out !! i = Some s' ->
     response_entry (response_items (generateContent (promptData sections tiePoints))) (id s)
     = Some entry ->
     Forall ageless (entry_points entry) ->
     Forall (fun dp => age dp = None) (dataPoints s')) /\
  (forall i s,
     sections !! i = Some s ->
     (length (List.filter (fun tp => String.eqb (sectionId tp) (id s)) tiePoints) < 2)%nat ->
     exists out s',
       generateAgeModel true interpolating_delegate sections tiePoints = inr out /\
       out !! i = Some s' /\
       Forall (fun dp => age dp = None) (dataPoints s')).
Proof.
  split; [|split].
  - intros Hlen. unfold handleGenerateAgeModel.
    by rewrite (proj2 (Nat.ltb_lt _ _) Hlen).
  - intros out i s s' entry Hout Hi Hi' Hentry Hpts.
    apply generateAgeModel_calibrated in Hout.
    pose proof (Forall2_lookup_lr _ _ _ _ _ _ Hout Hi Hi') as Hs.
    unfold calibrated_as in Hs. rewrite Hentry in Hs. rewrite Hs. simpl.
    apply Forall_fmap, Forall_forall. intros dp _. simpl.
    by rewrite age_with_age, merged_age_none.
  - intros i s Hi Hfew.
    destruct (generateAgeModel_interpolating sections tiePoints) as (out & Hout & Hall).
    destruct (Forall2_lookup_l _ _ _ _ _ Hall Hi) as (s' & Hi' & Hs).
    exists out, s'. split; [done|]. split; [done|].
    unfold calibrated_as in Hs. rewrite response_entry_interpolating in Hs.
    destruct (find_same_id sections s) as (s0 & Hfind & Hid).
    { apply list_elem_of_In. by eapply list_elem_of_lookup_2. }
    rewrite Hfind in Hs. simpl in Hs. rewrite Hs. simpl.
    apply Forall_fmap, Forall_forall. intros dp _. simpl.
    rewrite age_with_age. apply merged_age_none.
    apply Forall_fmap, Forall_forall. intros od _ a. simpl.
    unfold point_age, interpolated_point, field_of. destruct od as [n|]; [|done].
    rewrite Hid, interpolate_few by done. by destruct n.
Qed.

(** Against C2 in the words of the specification: section S1 has no
    tie-point, the reply lists an age for its record, and the caller stores
    that age. *)
Lemma C2_counterexample_invented_age_is_stored :
  List.filter (fun tp => String.eqb (sectionId tp) "S1") tie_points_S2 = [] /\
  handleGenerateAgeModel true (fun _ => reply_one_age 10)
    [sample_section "S1" [sample_point 5]; sample_section "S2" [sample_point 50]]
    tie_points_S2 None
  = Some [sample_section "S1" [sample_aged_point 5 10];
          sample_section "S2" [sample_point 50]] /\
  age (sample_aged_point 5 10) = Some (num_of_Z 10).
Proof. split; [done|]. split; by_evaluation. Qed.

Lemma C2_witness :
  handleGenerateAgeModel true (fun _ => reply_one_age 10)
    [sample_section "S1" [sample_point 5]] one_tie_point None = None /\
  exists out s',
    generateAgeModel true interpolating_delegate
      [sample_section "S1" [sample_aged_point 5 7]; section_A] (one_tie_point ++ tie_points_A)
    = inr out /\
    out !! 0%nat = Some s' /\
    Forall (fun dp => age dp = None) (dataPoints s').
Proof.
  split.
  - apply (proj1 (C2_no_age_unless_the_reply_lists_one true (fun _ => reply_one_age 10)
             [sample_section "S1" [sample_point 5]] one_tie_point None)).
    simpl. lia.
  - apply (proj2 (proj2 (C2_no_age_unless_the_reply_lists_one true interpolating_delegate
             [sample_section "S1" [sample_aged_point 5 7]; section_A]
             (one_tie_point ++ tie_points_A) None)) 0%nat
             (sample_section "S1" [sample_aged_point 5 7])).
    + reflexivity.
    + simpl. lia.
Defined.

(** Against C6 in the words of the specification: an item without [id] and
    an age that is a string are tolerated; section S1 is returned unchanged,
    the record of S2 without age. *)
Lemma C6_counterexample_off_shape_reply_is_merged :
  generateAgeModel true (fun _ => reply_off_shape)
    [sample_section "S1" [sample_aged_point 5 7]; sample_section "S2" [sample_aged_point 5 7]]
    []
  = inr [sample_section "S1" [sample_aged_point 5 7]; sample_section "S2" [sample_point 5]].
Proof. by_evaluation. Qed.

Lemma C6_witness :
  generateAgeModel true (fun _ => NotJson) [sample_section "S1" [sample_point 5]] []
  = inl (AgeModelError SyntaxError) /\
  (exists e, generateAgeModel true (fun _ => reply_null_points)
               [sample_section "S1" [sample_point 5]] [] = inl e) /\
  handleGenerateAgeModel true (fun _ => reply_null_points)
    [sample_section "S1" [sample_point 5]] tie_points_S2 (Some [section_A])
  = Some [section_A].
Proof.
  split; [|split].
  - by apply (C6_calibration_fails_as_a_whole true (fun _ => NotJson)
                [sample_section "S1" [sample_point 5]] [] None).
  - apply (proj1 (proj2 (proj2 (proj2 (proj2 (proj2
             (C6_calibration_fails_as_a_whole true (fun _ => reply_null_points)
                [sample_section "S1" [sample_point 5]] [] None))))))
             (sample_section "S1" [sample_point 5])
             (JObj [("id", JStr "S1"); ("dataPoints", JNull)])).
    + by left.
    + reflexivity.
    + intros (fields & pts & [= <-] & Hpts & _). done.
  - apply (proj1 (proj2 (proj2 (proj2 (proj2 (proj2 (proj2
             (C6_calibration_fails_as_a_whole true (fun _ => reply_null_points)
                [sample_section "S1" [sample_point 5]] tie_points_S2 (Some [section_A]))))))))
             (AgeModelError TypeError)).
    reflexivity.
Defined.

(** ** Depth as the key of a data-point series *)

Lemma spread_lookup (existing p : DataPoint) (k : string) :
  spread existing p !! k = match p !! k with Some v => Some v | None => existing !! k end.
Proof. unfold spread. rewrite lookup_union. by destruct (p !! k), (existing !! k). Qed.

Lemma spread_depth (existing p : DataPoint) :
  depth existing = depth p -> depth (spread existing p) = depth existing.
Proof. unfold depth. intros H. rewrite spread_lookup, <- H. by destruct (existing !! "depth"). Qed.

Lemma spread_empty (p : DataPoint) : spread ∅ p = p.
Proof. unfold spread. apply (right_id ∅ (∪)). Qed.



Lemma depth_is_decide (d : number) (dp : DataPoint) :
  isNaN d = false -> depth_is d dp = bool_decide (depth dp = Some d).
Proof.
  intros Hd. unfold depth_is. destruct (depth dp) as [x|].
  - destruct x, d; simpl in *; try done; apply bool_decide_ext; naive_solver.
  - by rewrite bool_decide_eq_false_2.
Qed.

(** The branch on [findIndex] of [handleAddDataPoint] is [upsert]. *)
Lemma findIndex_upsert (dps : list DataPoint) (p : DataPoint) (d : number) :
  isNaN d = false -> depth p = Some d ->
  match findIndex (depth_is d) dps with
  | Some i =>
      match dps !! i with
      | Some existing => <[i := spread existing p]> dps
      | None => dps
      end
  | None => dps ++ [p]
  end = upsert dps p.
Proof.
  intros Hd Hp. induction dps as [|dp rest IH]; simpl; [done|].
  rewrite depth_is_decide, Hp by done.
  destruct (bool_decide (depth dp = Some d)); [done|].
  destruct (findIndex (depth_is d) rest) as [i|]; simpl.
  - destruct (rest !! i); simpl in *; by rewrite <- IH.
  - by rewrite <- IH.
Qed.

Lemma Map_new_keyed (dps : list DataPoint) :
  NoDup (map depth dps) ->
  Map_new same_depth (map (fun p => (depth p, p)) dps) = map (fun p => (depth p, p)) dps.
Proof.
  unfold Map_new.
  assert (H : forall done todo : list DataPoint,
             NoDup (map depth (done ++ todo)) ->
             fold_left (fun m e => Map_set same_depth (fst e) (snd e) m)
                       (map (fun p => (depth p, p)) todo)
                       (map (fun p => (depth p, p)) done)
             = map (fun p => (depth p, p)) (done ++ todo)).
  { intros done todo. revert done.
    induction todo as [|p todo IH]; intros done Hnd; simpl.
    - by rewrite app_nil_r.
    - assert (Hset : Map_set same_depth (depth p) p (map (fun p => (depth p, p)) done)
                     = map (fun p => (depth p, p)) (done ++ [p])).
      { rewrite map_app in Hnd. apply NoDup_app in Hnd as (_ & Hdisj & _).
        assert (Hp : Forall (fun dp => depth dp <> depth p) done).
        { apply Forall_forall. intros dp Hdp Heq.
          apply (Hdisj (depth dp)); [by apply list_elem_of_fmap_2|].
          rewrite Heq. simpl. by left. }
        clear -Hp. induction Hp as [|dp done Hdp _ IHp]; simpl; [done|].
        unfold same_depth at 1. by rewrite bool_decide_eq_false_2, IHp. }
      rewrite Hset, IH; [by rewrite <- app_assoc|]. by rewrite <- app_assoc. }
  intros Hnd. by apply (H [] dps).
Qed.

(** A step of the CSV merge is [upsert] on the values of the map. *)
Lemma merge_point_upsert (dps : list DataPoint) (p : DataPoint) :
  is_Some (depth p) ->
  merge_point (map (fun p => (depth p, p)) dps) p
  = map (fun p => (depth p, p)) (upsert dps p).
Proof.
  intros [d Hd]. unfold merge_point. rewrite Hd.
  induction dps as [|dp rest IH]; simpl.
  - by rewrite spread_empty, Hd.
  - rewrite Hd. destruct (same_depth (depth dp) (Some d)) eqn:Hs.
    + unfold same_depth in Hs. rewrite Hs. simpl.
      apply bool_decide_eq_true_1 in Hs.
      by rewrite spread_depth by congruence.
    + unfold same_depth in Hs. rewrite Hs. simpl. by rewrite <- IH.
Qed.

Lemma fold_merge_point_upsert (rows dps : list DataPoint) :
  fold_left merge_point rows (map (fun p => (depth p, p)) dps)
  = map (fun p => (depth p, p)) (fold_left upsert (List.filter has_depth rows) dps).
Proof.
  revert dps. induction rows as [|p rows IH]; intros dps; simpl; [done|].
  unfold has_depth at 1. destruct (decide (is_Some (depth p))) as [Hp|Hp].
  - rewrite (bool_decide_eq_true_2 _ Hp). simpl.
    by rewrite merge_point_upsert, IH.
  - rewrite (bool_decide_eq_false_2 _ Hp). rewrite <- IH. f_equal.
    unfold merge_point. destruct (depth p); [|done]. by destruct Hp.
Qed.

Lemma filter_has_depth_valid (rows : list DataPoint) :
  List.filter has_depth
    (List.filter (fun dp => negb (bool_decide (dp = ∅)) &&
                            (bool_decide (is_Some (depth dp)) || bool_decide (is_Some (age dp))))
                 rows)
  = List.filter has_depth rows.
Proof.
  induction rows as [|p rows IH]; simpl; [done|].
  unfold has_depth at 2. destruct (decide (is_Some (depth p))) as [Hp|Hp].
  - rewrite (bool_decide_eq_true_2 _ Hp).
    rewrite bool_decide_eq_false_2.
    + simpl. unfold has_depth at 1. by rewrite (bool_decide_eq_true_2 _ Hp), IH.
    + intros ->. destruct Hp as [d Hd]. unfold depth in Hd. by rewrite lookup_empty in Hd.
  - rewrite (bool_decide_eq_false_2 _ Hp). simpl.
    destruct (negb _ && _); [|done].
    simpl. unfold has_depth at 1. by rewrite (bool_decide_eq_false_2 _ Hp).
Qed.

Lemma sort_by_depth_sorted (l : list DataPoint) :
  StronglySorted (key_le depth_or_zero) (sort_by by_depth l) /\ sort_by by_depth l ≡ₚ l.
Proof.
  change by_depth with (by_key depth_or_zero). split; [|apply sort_by_perm].
  apply sort_by_sorted, Forall_forall. intros dp _. unfold depth_or_zero.
  by destruct (depth dp) as [[]|].
Qed.

Lemma depth_or_zero_depth (dp : DataPoint) (d : number) :
  depth dp = Some d -> isNaN d = false -> depth_or_zero dp = d.
Proof. unfold depth_or_zero. intros -> Hd. by destruct d. Qed.

(** ** The examples of the specification *)

(** P8: sections A (ages 100, 300) and B (ages 150, 250), both with
    full-range intervals, give the composite 100, 150, 250, 300. *)
Example compositeSplice_P8 :
  map age (compositeSplice (Some calibrated_AB) full_range)
  = [Some (num_of_Z 100); Some (num_of_Z 150); Some (num_of_Z 250); Some (num_of_Z 300)].
Proof. by_evaluation. Qed.

(** P7: the interval (50, 10) selects what the interval (10, 50) selects. *)
Example compositeSplice_P7 :
  compositeSplice (Some calibrated_AB)
    (<["A" := mkInterval (Some "A") (Num (num_of_Z 50)) (Num (num_of_Z 10))]> full_range)
  = compositeSplice (Some calibrated_AB)
    (<["A" := mkInterval (Some "A") (Num (num_of_Z 10)) (Num (num_of_Z 50))]> full_range).
Proof. by_evaluation. Qed.

(** The scenario: the records of S1 at depths 0, 50, 100 receive the ages 0,
    5, 10; the records of S2, which has one tie-point, receive none, and S2
    adds nothing to the composite whatever its interval. *)
Example calibration_scenario :
  generateAgeModel true interpolating_delegate scenario_sections scenario_tie_points
  = inr [sample_section "S1" [sample_aged_point 0 0; sample_aged_point 50 5;
                              sample_aged_point 100 10];
         sample_section "S2" [sample_point 10; sample_point 20]] /\
  compositeSplice
    (Some [sample_section "S2" [sample_point 10; sample_point 20]])
    {[ "S2" := mkInterval (Some "S2") NegInf_bound PosInf_bound ]} = [].
Proof. split; by_evaluation. Qed.

(** An empty input clears a bound; a number is stored as parsed. *)
Example handleSpliceIntervalChange_examples :
  handleSpliceIntervalChange full_range "A" StartAge ""
  = <["A" := mkInterval (Some "A") Null (Num (num_of_Z 1000))]> full_range /\
  handleSpliceIntervalChange ∅ "C" EndAge "12.5"
  = {[ "C" := mkInterval None Absent (Num (Fin (Q2Qc (25 # 2)))) ]}.
Proof. split; by_evaluation. Qed.

(** A CSV row at an existing depth is merged, a row at a new depth is added,
    a row without depth is left out. *)
Example handleConfirmMapping_example :
  dataPoints <$> handleConfirmMapping
    (sample_section "S1" [sample_point 9; sample_aged_point 5 7])
    [{[ "depth" := num_of_Z 5; "tex86" := num_of_Z 1 ]};
     {[ "age" := num_of_Z 4 ]};
     {[ "depth" := num_of_Z 2 ]}]
  = Some [{[ "depth" := num_of_Z 2 ]};
          <["tex86" := num_of_Z 1]> (sample_aged_point 5 7);
          sample_point 9].
Proof. by_evaluation. Qed.

(** ** Further properties of the code *)

Lemma depth_key_with_age (dp : DataPoint) (v : option number) :
  depth_key (with_age dp v) = depth_key dp.
Proof.
  unfold depth_key, depth, with_age.
  destruct v; [by rewrite lookup_insert_ne|by rewrite lookup_delete_ne].
Qed.

Lemma with_age_twice (dp : DataPoint) (v w : option number) :
  with_age (with_age dp v) w = with_age dp w.
Proof.
  unfold with_age. apply map_eq. intros k.
  destruct (decide (k = "age")) as [->|Hk].
  - destruct v, w; by rewrite ?lookup_insert_eq, ?lookup_delete_eq.
  - destruct v, w; by rewrite ?lookup_insert_ne, ?lookup_delete_ne,
                       ?lookup_insert_ne, ?lookup_delete_ne by done.
Qed.

Lemma update_point_twice (ageMap : list (jsval * jsval)) (dp : DataPoint) :
  update_point ageMap (update_point ageMap dp) = update_point ageMap dp.
Proof.
  unfold update_point at 1 2. rewrite depth_key_with_age, with_age_twice. done.
Qed.

Lemma merge_section_twice (cs : jsval) (s s' : SectionRec) :
  merge_section cs s = inr s' -> merge_section cs s' = inr s'.
Proof.
  unfold merge_section. intros H.
  apply bind_inr in H as (items & Hitems & H). rewrite Hitems. cbn [bind].
  apply bind_inr in H as (cd & Hcd & H).
  destruct cd as [cd|].
  - apply bind_inr in H as (entries & Hentries & H). injection H as <-.
    cbn [id with_dataPoints]. rewrite Hcd. cbn [bind]. rewrite Hentries. cbn [bind].
    unfold ret, with_dataPoints. cbn. do 2 f_equal.
    rewrite map_map. apply map_ext. intros dp. apply update_point_twice.
  - injection H as <-. rewrite Hcd. done.
Qed.

(** Calibrating the result of a calibration again, with the same reply,
    changes nothing. *)
Theorem recalibration_changes_nothing (API_KEY : bool) (reply : delegate_reply)
    (sections out : list SectionRec) (tiePoints tiePoints' : list TiePoint) :
  generateAgeModel API_KEY (fun _ => reply) sections tiePoints = inr out ->
  generateAgeModel API_KEY (fun _ => reply) out tiePoints' = inr out.
Proof.
  intros H. apply generateAgeModel_inr in H as (-> & resp & cs & -> & Hcs & Hall).
  unfold generateAgeModel. cbn [negb]. rewrite Hcs. cbn [bind].
  assert (Hout : map_exc (merge_section cs) out = inr out).
  { apply map_exc_inr. clear Hcs. induction Hall as [|s s' l l' Hs _ IH]; constructor; [|done].
    by eapply merge_section_twice. }
  by rewrite Hout.
Qed.

Lemma recalibration_witness :
  generateAgeModel true (fun _ => reply_one_age 10)
    [sample_section "S1" [sample_aged_point 5 10]; sample_section "S2" [sample_aged_point 5 7]]
    one_tie_point
  = inr [sample_section "S1" [sample_aged_point 5 10];
         sample_section "S2" [sample_aged_point 5 7]].
Proof.
  apply (recalibration_changes_nothing true (reply_one_age 10)
           [sample_section "S1" [sample_point 5]; sample_section "S2" [sample_aged_point 5 7]]
           _ [] one_tie_point).
  by_evaluation.
Defined.

(** An edit of one bound leaves the intervals of the other sections and the
    other bound of the edited interval as they were; the edited bound is
    cleared by the empty string and holds the parsed number otherwise. *)
Theorem handleSpliceIntervalChange_frame (prev : gmap string SpliceInterval)
    (sectionId : string) (type : bound_field) (value : string) :
  (forall other : string, other <> sectionId ->
     handleSpliceIntervalChange prev sectionId type value !! other = prev !! other) /\
  exists iv,
    handleSpliceIntervalChange prev sectionId type value !! sectionId = Some iv /\
    get_bound iv type = (if String.eqb value "" then Null else Num (parseFloat value)) /\
    get_bound iv (other_bound type)
    = from_option (fun old => get_bound old (other_bound type)) Absent (prev !! sectionId).
Proof.
  unfold handleSpliceIntervalChange. split.
  - intros other Hother. by rewrite lookup_insert_ne.
  - rewrite lookup_insert_eq. eexists. split; [done|].
    destruct (prev !! sectionId) as [old|]; by destruct type.
Qed.

(** ** Data entry: what is refused, what is kept *)

Lemma proxies_empty (formState : gmap string string) :
  omap parse_proxy (delete "depth" formState) = (∅ : DataPoint) <->
  forall k raw, k <> "depth" -> formState !! k = Some raw -> parse_proxy raw = None.
Proof.
  split.
  - intros Hempty k raw Hk Hraw.
    assert (H : omap parse_proxy (delete "depth" formState) !! k = None)
      by (by rewrite Hempty, lookup_empty).
    rewrite lookup_omap, lookup_delete_ne in H by done. by rewrite Hraw in H.
  - intros Hnone. apply map_eq. intros k. rewrite lookup_omap, lookup_empty.
    destruct (decide (k = "depth")) as [->|Hk].
    + by rewrite lookup_delete_eq.
    + rewrite lookup_delete_ne by done.
      destruct (formState !! k) as [raw|] eqn:Hraw; [|done]. simpl. by eapply Hnone.
Qed.

Lemma parse_proxy_not_NaN (raw : string) (v : number) :
  parse_proxy raw = Some v -> isNaN v = false.
Proof.
  unfold parse_proxy. destruct (String.eqb raw ""); [done|].
  destruct (isNaN (parseFloat raw)) eqn:Hv; [done|]. by intros [= <-].
Qed.

(** What an accepted manual entry hands over. *)
Lemma handleAddDataPoint_accepted (section updated : SectionRec)
    (formState : gmap string string) :
  handleAddDataPoint section formState = Some updated ->
  id updated = id section /\ core_id updated = core_id section /\
  name updated = name section /\ metadata updated = metadata section /\
  labAnalysis updated = Some ∅ /\
  (length (dataPoints updated) = length (dataPoints section) \/
   length (dataPoints updated) = S (length (dataPoints section))) /\
  exists newPointData,
    dataPoints updated ≡ₚ upsert (dataPoints section) newPointData /\
    newPointData !! "depth" = Some (from_option parseFloat NaN (formState !! "depth")) /\
    (forall k raw, k <> "depth" -> formState !! k = Some raw ->
                   newPointData !! k = parse_proxy raw) /\
    (forall k, formState !! k = None -> newPointData !! k = None) /\
    forall k v, newPointData !! k = Some v -> isNaN v = false.
Proof.
  unfold handleAddDataPoint.
  destruct (isNaN (from_option parseFloat NaN (formState !! "depth"))) eqn:Hd; [done|].
  destruct (bool_decide (omap parse_proxy (delete "depth" formState) = (∅ : DataPoint)));
    [done|].
  intros [= <-]. simpl. repeat split.
  - rewrite (Permutation_length (sort_by_perm depth_or_zero _)).
    destruct (findIndex _ _) as [i|]; [left|right].
    + destruct (_ !! i); [apply length_insert|done].
    + rewrite length_app. simpl. lia.
  - eexists. split; [|split; [apply lookup_insert_eq|split; [|split]]].
    + rewrite findIndex_upsert by (done || apply lookup_insert_eq).
      apply sort_by_depth_sorted.
    + intros k raw Hk Hraw.
      by rewrite lookup_insert_ne, lookup_omap, lookup_delete_ne, Hraw.
    + intros k Hk. destruct (decide (k = "depth")) as [->|Hne].
      * by rewrite Hk in Hd.
      * by rewrite lookup_insert_ne, lookup_omap, lookup_delete_ne, Hk.
    + intros k v. destruct (decide (k = "depth")) as [->|Hne].
      * rewrite lookup_insert_eq. by intros [= <-].
      * rewrite lookup_insert_ne, lookup_omap, lookup_delete_ne by done.
        destruct (formState !! k) as [raw|]; [|done]. apply parse_proxy_not_NaN.
Qed.

(** The manual entry is refused exactly when the depth field is not a number
    or no other field holds a number.  When it is accepted, the section
    handed over has the identifier, the name and the metadata it had, an
    empty lab analysis, one more record or as many as before, and
    no record field taken from the form is [NaN]. *)
Theorem handleAddDataPoint_validation (section : SectionRec)
    (formState : gmap string string) :
  (handleAddDataPoint section formState = None <->
   isNaN (from_option parseFloat NaN (formState !! "depth")) = true \/
   forall k raw, k <> "depth" -> formState !! k = Some raw -> parse_proxy raw = None) /\
  forall updated,
    handleAddDataPoint section formState = Some updated ->
    id updated = id section /\ core_id updated = core_id section /\
    name updated = name section /\ metadata updated = metadata section /\
    labAnalysis updated = Some ∅ /\
    (length (dataPoints updated) = length (dataPoints section) \/
     length (dataPoints updated) = S (length (dataPoints section))) /\
    exists newPointData,
      dataPoints updated ≡ₚ upsert (dataPoints section) newPointData /\
      newPointData !! "depth" = Some (from_option parseFloat NaN (formState !! "depth")) /\
      (forall k raw, k <> "depth" -> formState !! k = Some raw ->
                     newPointData !! k = parse_proxy raw) /\
      (forall k, formState !! k = None -> newPointData !! k = None) /\
      forall k v, newPointData !! k = Some v -> isNaN v = false.
Proof.
  split; [|intros updated; apply handleAddDataPoint_accepted].
  unfold handleAddDataPoint.
  destruct (isNaN (from_option parseFloat NaN (formState !! "depth"))) eqn:Hd.
  { split; [by left|done]. }
  destruct (decide (omap parse_proxy (delete "depth" formState) = (∅ : DataPoint)))
    as [Hempty|Hsome].
  { rewrite (bool_decide_eq_true_2 _ Hempty).
    split; [|done]. intros _. right. by apply proxies_empty. }
  rewrite (bool_decide_eq_false_2 _ Hsome).
  split; [done|]. intros [?|Hnone]; [done|]. by apply proxies_empty in Hnone.
Qed.

Lemma handleAddDataPoint_validation_witness :
  handleAddDataPoint (sample_section "S1" [sample_point 9; sample_aged_point 5 7])
    {[ "depth" := "abc"; "delta18O" := "1.5" ]} = None /\
  handleAddDataPoint (sample_section "S1" [sample_point 9; sample_aged_point 5 7])
    {[ "depth" := "5"; "delta18O" := "x"; "tex86" := "" ]} = None /\
  labAnalysis sample_updated = Some ∅.
Proof.
  pose proof (handleAddDataPoint_validation
    (sample_section "S1" [sample_point 9; sample_aged_point 5 7])
    {[ "depth" := "abc"; "delta18O" := "1.5" ]}) as [[_ Hdepth] _].
  pose proof (handleAddDataPoint_validation
    (sample_section "S1" [sample_point 9; sample_aged_point 5 7])
    {[ "depth" := "5"; "delta18O" := "x"; "tex86" := "" ]}) as [[_ Hproxy] _].
  pose proof (handleAddDataPoint_validation
    (sample_section "S1" [sample_point 9; sample_aged_point 5 7]) sample_form)
    as [_ Hok].
  split; [|split].
  - apply Hdepth. left. reflexivity.
  - apply Hproxy. right. apply proxies_empty. by_evaluation.
  - apply (Hok sample_updated). by_evaluation.
Defined.

Lemma upsert_depths (dps : list DataPoint) (p : DataPoint) :
  map depth (upsert dps p)
  = if decide (depth p ∈ map depth dps) then map depth dps
    else map depth dps ++ [depth p].
Proof.
  induction dps as [|dp rest IH]; simpl; [done|].
  - destruct (decide (depth dp = depth p)) as [Heq|Hne].
    + rewrite (bool_decide_eq_true_2 _ Heq). simpl.
      rewrite spread_depth by done.
      rewrite decide_True; [done|]. rewrite Heq. by left.
    + rewrite (bool_decide_eq_false_2 _ Hne). simpl. rewrite IH.
      destruct (decide (depth p ∈ map depth rest)) as [Hin|Hnin].
      * rewrite decide_True; [done|]. by right.
      * rewrite decide_False; [done|].
        intros Hin. apply elem_of_cons in Hin as [Heq|Hin]; [by apply Hne|by apply Hnin].
Qed.

Lemma upsert_NoDup (dps : list DataPoint) (p : DataPoint) :
  NoDup (map depth dps) -> NoDup (map depth (upsert dps p)).
Proof.
  intros Hnd. rewrite upsert_depths. destruct (decide _) as [Hin|Hnin]; [done|].
  apply NoDup_app. split; [done|]. split; [|apply NoDup_singleton].
  intros k Hk Hk'. apply list_elem_of_singleton in Hk' as ->. by apply Hnin.
Qed.

Lemma Map_set_keys {V} (k : option number) (v : V) (m : list (option number * V)) :
  map fst (Map_set same_depth k v m)
  = if decide (k ∈ map fst m) then map fst m else map fst m ++ [k].
Proof.
  induction m as [|[k' v'] m IH]; simpl; [done|].
  - unfold same_depth at 1. destruct (decide (k' = k)) as [->|Hne].
    + rewrite bool_decide_eq_true_2 by done. simpl.
      rewrite decide_True; [done|]. by left.
    + rewrite bool_decide_eq_false_2 by done. simpl. rewrite IH.
      destruct (decide (k ∈ map fst m)) as [Hin|Hnin].
      * rewrite decide_True; [done|]. by right.
      * rewrite decide_False; [done|].
        intros Hin. apply elem_of_cons in Hin as [Heq|Hin]; [by apply Hne|by apply Hnin].
Qed.

(** The entries of a map from depth to record: no depth twice, every record
    under its own depth. *)
Lemma Map_set_keyed (k : option number) (v : DataPoint)
    (m : list (option number * DataPoint)) :
  depth v = k ->
  NoDup (map fst m) /\ Forall (fun e => depth (snd e) = fst e) m ->
  NoDup (map fst (Map_set same_depth k v m)) /\
  Forall (fun e => depth (snd e) = fst e) (Map_set same_depth k v m).
Proof.
  intros Hv [Hnd Hall]. split.
  - rewrite Map_set_keys. destruct (decide _) as [Hin|Hnin]; [done|].
    apply NoDup_app. split; [done|]. split; [|apply NoDup_singleton].
    intros k0 Hk Hk'. apply list_elem_of_singleton in Hk' as ->. by apply Hnin.
  - clear Hnd. induction Hall as [|[k' v'] m Hk' Hm IH]; simpl.
    + by repeat constructor.
    + unfold same_depth at 1. destruct (decide (k' = k)) as [->|Hne].
      * rewrite bool_decide_eq_true_2 by done.
        constructor; [exact Hv | exact Hm].
      * rewrite bool_decide_eq_false_2 by done.
        constructor; [exact Hk' | exact IH].
Qed.

Lemma merge_point_keyed (m : list (option number * DataPoint)) (p : DataPoint) :
  NoDup (map fst m) /\ Forall (fun e => depth (snd e) = fst e) m ->
  NoDup (map fst (merge_point m p)) /\
  Forall (fun e => depth (snd e) = fst e) (merge_point m p).
Proof.
  intros Hm. unfold merge_point. destruct (depth p) as [d|] eqn:Hd; [|done].
  apply Map_set_keyed; [|done].
  unfold depth. rewrite spread_lookup. unfold depth in Hd. by rewrite Hd.
Qed.

Lemma existing_points_keyed (dps : list DataPoint) :
  NoDup (map fst (Map_new same_depth (map (fun p => (depth p, p)) dps))) /\
  Forall (fun e => depth (snd e) = fst e)
         (Map_new same_depth (map (fun p => (depth p, p)) dps)).
Proof.
  unfold Map_new.
  assert (H : forall m : list (option number * DataPoint),
             NoDup (map fst m) /\ Forall (fun e => depth (snd e) = fst e) m ->
             NoDup (map fst (fold_left (fun m e => Map_set same_depth (fst e) (snd e) m)
                                       (map (fun p => (depth p, p)) dps) m)) /\
             Forall (fun e => depth (snd e) = fst e)
                    (fold_left (fun m e => Map_set same_depth (fst e) (snd e) m)
                               (map (fun p => (depth p, p)) dps) m)).
  { induction dps as [|p dps IH]; intros m Hm; simpl; [done|].
    apply IH. by apply Map_set_keyed. }
  apply H. split; constructor.
Qed.

(** Both ways of adding records keep the depths of a series distinct: the
    manual entry when they were distinct before, the CSV import in any case
    (it also removes the duplicates the series had). *)
Theorem data_entry_keeps_depths_distinct (section updated : SectionRec)
    (formState : gmap string string) (rows : list DataPoint) :
  (NoDup (map depth (dataPoints section)) ->
   handleAddDataPoint section formState = Some updated ->
   NoDup (map depth (dataPoints updated))) /\
  (handleConfirmMapping section rows = Some updated ->
   NoDup (map depth (dataPoints updated))).
Proof.
  split.
  - intros Hnd Hadd.
    destruct (handleAddDataPoint_accepted _ _ _ Hadd)
      as (_ & _ & _ & _ & _ & _ & p & Hperm & _).
    rewrite Hperm. by apply upsert_NoDup.
  - unfold handleConfirmMapping. set (rows' := List.filter _ rows).
    destruct (length rows' =? 0)%nat; [done|].
    intros [= <-]. simpl.
    rewrite (sort_by_perm depth_or_zero).
    assert (H : forall (ps : list DataPoint) (m : list (option number * DataPoint)),
               NoDup (map fst m) /\ Forall (fun e => depth (snd e) = fst e) m ->
               NoDup (map fst (fold_left merge_point ps m)) /\
               Forall (fun e => depth (snd e) = fst e) (fold_left merge_point ps m)).
    { induction ps as [|p ps IH]; intros m Hm; simpl; [done|].
      apply IH. by apply merge_point_keyed. }
    destruct (H rows' _ (existing_points_keyed (dataPoints section))) as [Hnd Hall].
    unfold Map_values. rewrite map_map.
    replace (map (fun x => depth (snd x)) (fold_left merge_point rows' _))
      with (map fst (fold_left merge_point rows'
              (Map_new same_depth (map (fun p => (depth p, p)) (dataPoints section)))));
      [done|].
    symmetry. apply Forall_fmap_ext_1. exact Hall.
Qed.

Lemma data_entry_keeps_depths_distinct_witness :
  NoDup (map depth (dataPoints sample_updated)) /\
  NoDup (map depth (dataPoints sample_merged)).
Proof.
  pose proof (data_entry_keeps_depths_distinct
    (sample_section "S1" [sample_point 9; sample_aged_point 5 7]) sample_updated
    sample_form sample_rows) as [Hadd _].
  pose proof (data_entry_keeps_depths_distinct
    (sample_section "S1" [sample_point 9; sample_aged_point 5 7]) sample_merged
    sample_form sample_rows) as [_ Hcsv].
  split.
  - apply Hadd; by_evaluation.
  - apply Hcsv. by_evaluation.
Defined.

(** ** The composite needs both bounds of a section *)

Lemma initialSpliceIntervals_untouched (side : string -> bound_field)
    (sections : list SectionRec) :
  untouched side (initialSpliceIntervals sections).
Proof.
  unfold initialSpliceIntervals.
  assert (H : forall m : gmap string SpliceInterval, untouched side m ->
            untouched side
              (fold_left (fun acc s =>
                            <[id s := {| iv_sectionId := Some (id s);
                                         startAge := Null; endAge := Null |}]> acc)
                         sections m)).
  { induction sections as [|s sections IH]; intros m Hm; simpl; [done|].
    apply IH. intros sid iv. destruct (decide (sid = id s)) as [->|Hne].
    - rewrite lookup_insert_eq. intros [= <-]. left. by destruct (side (id s)).
    - rewrite lookup_insert_ne by done. apply Hm. }
  apply H. intros sid iv. by rewrite lookup_empty.
Qed.

Lemma get_set_other_bound (iv : SpliceInterval) (type : bound_field) (b : bound) :
  get_bound (set_bound iv type b) (other_bound type) = get_bound iv (other_bound type).
Proof. by destruct type. Qed.

Lemma handleSpliceIntervalChange_untouched (side : string -> bound_field)
    (prev : gmap string SpliceInterval) (sectionId : string) (type : bound_field)
    (value : string) :
  type = other_bound (side sectionId) -> untouched side prev ->
  untouched side (handleSpliceIntervalChange prev sectionId type value).
Proof.
  intros Htype Hprev sid iv. unfold handleSpliceIntervalChange.
  destruct (decide (sid = sectionId)) as [->|Hne].
  - rewrite lookup_insert_eq. intros [= <-].
    assert (Hside : side sectionId = other_bound type)
      by (rewrite Htype; by destruct (side sectionId)).
    rewrite Hside, get_set_other_bound, <- Hside.
    destruct (prev !! sectionId) as [old|] eqn:Hold; simpl.
    + by apply (Hprev sectionId).
    + right. by destruct (side sectionId).
  - rewrite lookup_insert_ne by done. apply Hprev.
Qed.

Lemma splice_of_section_untouched (side : string -> bound_field)
    (spliceIntervals : gmap string SpliceInterval) (s : SectionRec) :
  untouched side spliceIntervals -> splice_of_section spliceIntervals s = [].
Proof.
  intros Hm. unfold splice_of_section.
  destruct (spliceIntervals !! id s) as [iv|] eqn:Hiv; [|done].
  destruct (Hm _ _ Hiv) as [Hb|Hb]; destruct (side (id s)); simpl in Hb; rewrite Hb.
  - done.
  - by rewrite andb_false_r.
  - destruct (not_null (endAge iv)); [|done]. simpl.
    apply filter_none. intros dp. by destruct (age dp).
  - rewrite andb_true_r. destruct (not_null (startAge iv)); [|done]. simpl.
    apply filter_none. intros dp. destruct (age dp); [|done].
    by rewrite Math_min_NaN_r.
Qed.

Lemma flat_map_nil {A B} (f : A -> list B) (l : list A) :
  (forall x, f x = []) -> flat_map f l = [].
Proof. intros Hf. induction l as [|x l IH]; simpl; [done|]. by rewrite Hf, IH. Qed.

(** The composite stays empty as long as no section has had both of its
    bounds edited: from the initial intervals, after any series of edits in
    which every section is edited on one side only, whatever is typed and
    whatever the calibrated sections are. *)
Theorem composite_needs_both_bounds (sections : list SectionRec)
    (calibratedSections : option (list SectionRec))
    (edits : list (string * bound_field * string)) (edited : string -> bound_field) :
  (forall sid type value, (sid, type, value) ∈ edits -> type = edited sid) ->
  compositeSplice calibratedSections
    (splice_edits edits (initialSpliceIntervals sections)) = [].
Proof.
  intros Hedits.
  assert (Hun : untouched (fun sid => other_bound (edited sid))
                  (splice_edits edits (initialSpliceIntervals sections))).
  { unfold splice_edits.
    pose proof (initialSpliceIntervals_untouched
                  (fun sid => other_bound (edited sid)) sections) as Hinit.
    revert Hinit. generalize (initialSpliceIntervals sections).
    induction edits as [|[[sid type] value] edits IH]; intros m Hm; simpl; [done|].
    apply IH.
    - intros sid' type' value' Hin. apply (Hedits sid' type' value'). by right.
    - apply handleSpliceIntervalChange_untouched; [|done].
      rewrite (Hedits sid type value) by left. by destruct (edited sid). }
  destruct calibratedSections as [cal|]; simpl; [|done].
  rewrite flat_map_nil; [done|].
  intros s. by eapply splice_of_section_untouched.
Qed.

Lemma composite_needs_both_bounds_witness :
  compositeSplice (Some calibrated_AB)
    (splice_edits [("A", StartAge, "100"); ("B", EndAge, "400"); ("A", StartAge, "")]
       (initialSpliceIntervals calibrated_AB)) = [].
Proof.
  apply (composite_needs_both_bounds calibrated_AB (Some calibrated_AB) _
           (fun sid => if String.eqb sid "A" then StartAge else EndAge)).
  intros sid type value Hin.
  repeat (apply elem_of_cons in Hin as [[= -> -> ->]|Hin]; [done|]).
  by apply elem_of_nil in Hin.
Defined.

(** ** What the charts draw *)

Lemma has_both_spec (xKey proxyKey : string) (dp : DataPoint) :
  has_both xKey proxyKey dp = true <-> is_Some (dp !! xKey) /\ is_Some (dp !! proxyKey).
Proof.
  unfold has_both. rewrite andb_true_iff. by rewrite !bool_decide_eq_true.
Qed.

Lemma filter_all {A} (p : A -> bool) (l : list A) :
  Forall (fun x => p x = true) l -> List.filter p l = l.
Proof.
  induction 1 as [|x l Hx _ IH]; simpl; [done|]. by rewrite Hx, IH.
Qed.

Lemma filter_Forall {A} (p : A -> bool) (l : list A) :
  Forall (fun x => p x = true) (List.filter p l).
Proof.
  induction l as [|x l IH]; simpl; [constructor|].
  destruct (p x) eqn:Hx; [by constructor|done].
Qed.

Lemma filter_keeps_Forall {A} (P : A -> Prop) (p : A -> bool) (l : list A) :
  Forall P l -> Forall P (List.filter p l).
Proof.
  induction 1 as [|x l Hx _ IH]; simpl; [constructor|].
  destruct (p x); [by constructor|done].
Qed.

Lemma field_number_not_NaN (key : string) (dp : DataPoint) :
  is_Some (dp !! key) -> dp !! key <> Some NaN -> isNaN (field_number key dp) = false.
Proof.
  unfold field_number. intros [v Hv] Hnan. rewrite Hv in *. simpl.
  by destruct v.
Qed.

(** The points a chart series is sorted from: those with an x value and a
    proxy value; none of them has [NaN] for x when the series has none. *)
Lemma chart_points_not_NaN (xKey proxyKey : string) (points : list DataPoint) :
  Forall (fun dp => dp !! xKey <> Some NaN) points ->
  Forall (fun dp => isNaN (field_number xKey dp) = false)
         (List.filter (has_both xKey proxyKey) points).
Proof.
  intros Hnan.
  pose proof (filter_Forall (has_both xKey proxyKey) points) as Hboth.
  pose proof (filter_keeps_Forall _ (has_both xKey proxyKey) _ Hnan) as Hnan'.
  revert Hboth Hnan'. generalize (List.filter (has_both xKey proxyKey) points).
  intros l Hboth. induction Hboth as [|dp l Hdp _ IH]; intros Hl; [constructor|].
  apply Forall_cons in Hl as [Hx Hl]. constructor; [|by apply IH].
  apply has_both_spec in Hdp as [Hd _]. by apply field_number_not_NaN.
Qed.

(** [MultiSectionChart] draws, for every section and in the order of the
    sections, the records that have both the x value and the proxy value, and
    no other; when no x value of the section is [NaN] they are in ascending
    order of x, and preparing the prepared sections again changes nothing.
    [CoreAnalysisChart] draws all the records of the section, in ascending
    order of x when every record has an x value that is not [NaN]. *)
Theorem charts_select_and_sort (sections : list SectionRec) (proxyKey : string)
    (xAxisKey : axis_key) (points : list DataPoint) (xKey : string) :
  Forall2 (fun section shown =>
             id shown = id section /\ name shown = name section /\
             dataPoints shown
               ≡ₚ List.filter (has_both (axis_name xAxisKey) proxyKey) (dataPoints section) /\
             (Forall (fun dp => dp !! axis_name xAxisKey <> Some NaN) (dataPoints section) ->
              StronglySorted (key_le (field_number (axis_name xAxisKey)))
                             (dataPoints shown)))
          sections (processedSections sections proxyKey xAxisKey) /\
  (Forall (fun section =>
             Forall (fun dp => dp !! axis_name xAxisKey <> Some NaN) (dataPoints section))
          sections ->
   processedSections (processedSections sections proxyKey xAxisKey) proxyKey xAxisKey
   = processedSections sections proxyKey xAxisKey) /\
  sortedData points xKey ≡ₚ points /\
  (Forall (fun dp => exists v, dp !! xKey = Some v /\ isNaN v = false) points ->
   StronglySorted (key_le (field_number xKey)) (sortedData points xKey)).
Proof.
  repeat match goal with |- _ /\ _ => split end.
  - unfold processedSections. induction sections as [|s sections IH]; simpl; constructor;
      [|exact IH].
    simpl. repeat match goal with |- _ /\ _ => split end; try done.
    + apply sort_by_perm.
    + intros Hnan. by apply sort_by_sorted, chart_points_not_NaN.
  - unfold processedSections. intros Hall. rewrite map_map.
    induction Hall as [|s sections Hs _ IH]; simpl; [done|]. f_equal; [|exact IH].
    unfold with_dataPoints. simpl. f_equal.
    pose proof (chart_points_not_NaN _ proxyKey _ Hs) as Hnan.
    set (shown := sort_by (by_key (field_number (axis_name xAxisKey)))
                    (List.filter (has_both (axis_name xAxisKey) proxyKey) (dataPoints s))).
    assert (Hperm : List.filter (has_both (axis_name xAxisKey) proxyKey) (dataPoints s)
                    ≡ₚ shown)
      by (symmetry; apply sort_by_perm).
    rewrite filter_all.
    + apply sort_by_id.
      * exact (Permutation_Forall Hperm Hnan).
      * by apply sort_by_sorted.
    + exact (Permutation_Forall Hperm (filter_Forall _ _)).
  - apply sort_by_perm.
  - intros Hall. apply sort_by_sorted.
    eapply Forall_impl; [exact Hall|]. intros dp (v & Hv & Hnan).
    unfold field_number. by rewrite Hv.
Qed.

Lemma charts_select_and_sort_witness :
  processedSections (processedSections calibrated_AB "depth" AgeAxis) "depth" AgeAxis
  = processedSections calibrated_AB "depth" AgeAxis /\
  StronglySorted (key_le (field_number "age"))
    (sortedData [sample_aged_point 2 300; sample_aged_point 1 100] "age").
Proof.
  pose proof (charts_select_and_sort calibrated_AB "depth" AgeAxis
                [sample_aged_point 2 300; sample_aged_point 1 100] "age")
    as (_ & Hagain & _ & Hsorted).
  split.
  - apply Hagain. repeat constructor; apply (bool_decide_eq_false_1 _); by vm_compute.
  - apply Hsorted. repeat constructor; eexists; (split; [by_evaluation|reflexivity]).
Defined.

(** ** The rows of a CSV file *)

Lemma map_cell_lookup (finalMap : gmap string (option string)) (newRow : DataPoint)
    (entry : string * cell) (k : string) (v : number) :
  map_cell finalMap newRow entry !! k = Some v ->
  newRow !! k = Some v \/ from_cell finalMap [entry] k v.
Proof.
  unfold map_cell. destruct entry as [header c]. simpl.
  destruct (finalMap !! header) as [[mappedKey|]|] eqn:Hmap; [|by left..].
  destruct (String.eqb_spec mappedKey "") as [->|Hkey]; [by left|].
  destruct c as [| |value|text]; [by left..| |].
  - destruct (decide (k = mappedKey)) as [->|Hne].
    + rewrite lookup_insert_eq. intros [= <-]. right.
      exists header, (CellNumber value).
      split; [by left|]. split; [done|]. split; [done|]. by left.
    + rewrite lookup_insert_ne by done. by left.
  - destruct (String.eqb_spec text "") as [->|Htext]; [by left|].
    destruct (isNaN (parseFloat (replace_comma text))) eqn:Hnan; [by left|].
    destruct (decide (k = mappedKey)) as [->|Hne].
    + rewrite lookup_insert_eq. intros [= <-]. right.
      exists header, (CellOther text).
      split; [by left|]. split; [done|]. split; [done|]. right. by exists text.
    + rewrite lookup_insert_ne by done. by left.
Qed.

Lemma from_cell_mono (finalMap : gmap string (option string))
    (row row' : list (string * cell)) (k : string) (v : number) :
  row ⊆ row' -> from_cell finalMap row k v -> from_cell finalMap row' k v.
Proof.
  intros Hsub (header & c & Hin & H). exists header, c. split; [by apply Hsub|done].
Qed.

Lemma fold_map_cell_lookup (finalMap : gmap string (option string))
    (row : list (string * cell)) (newRow : DataPoint) (k : string) (v : number) :
  fold_left (map_cell finalMap) row newRow !! k = Some v ->
  newRow !! k = Some v \/ from_cell finalMap row k v.
Proof.
  revert newRow. induction row as [|entry row IH]; intros newRow; simpl; [by left|].
  intros H. apply IH in H as [H|H].
  - apply map_cell_lookup in H as [H|H]; [by left|right].
    eapply from_cell_mono; [|exact H]. intros x Hx.
    apply list_elem_of_singleton in Hx as ->. by left.
  - right. eapply from_cell_mono; [|exact H]. intros x Hx. by right.
Qed.

Lemma map_row_lookup (finalMap : gmap string (option string))
    (row : list (string * cell)) (k : string) (v : number) :
  map_row finalMap row !! k = Some v -> from_cell finalMap row k v.
Proof.
  intros H. apply fold_map_cell_lookup in H as [H|H]; [|done].
  by rewrite lookup_empty in H.
Qed.

Lemma map_row_unmapped (finalMap : gmap string (option string))
    (row : list (string * cell)) (k : string) :
  (forall header, finalMap !! header <> Some (Some k)) -> map_row finalMap row !! k = None.
Proof.
  intros Hk. destruct (map_row finalMap row !! k) as [v|] eqn:Hv; [|done].
  apply map_row_lookup in Hv as (header & c & _ & Hmap & _). by destruct (Hk header).
Qed.

(** Every field of a row object comes from a cell of the row under a header
    that the confirmed mapping sends to the field, and the cell holds a
    number or a text that reads as a number once its first comma is a point:
    no field read from a text is [NaN].  A key that no header is mapped to is
    in no row object. *)
Theorem imported_fields_come_from_mapped_cells
    (finalMap : gmap string (option string)) (row : list (string * cell))
    (k : string) :
  (forall v, map_row finalMap row !! k = Some v -> from_cell finalMap row k v) /\
  ((forall header, finalMap !! header <> Some (Some k)) ->
   map_row finalMap row !! k = None) /\
  (Forall (fun entry => snd entry <> CellNumber NaN) row ->
   map_row finalMap row !! k <> Some NaN).
Proof.
  split; [|split].
  - intros v. apply map_row_lookup.
  - apply map_row_unmapped.
  - intros Hrow Hnan. apply map_row_lookup in Hnan as (header & c & Hin & _ & _ & Hc).
    destruct Hc as [->|(text & _ & _ & _ & Hv)]; [|done].
    by apply (proj1 (Forall_forall _ _) Hrow) in Hin.
Qed.

Lemma imported_fields_come_from_mapped_cells_witness :
  map_row (<["Tiefe" := Some "depth"]> (<["Notiz" := None]> ∅))
          [("Tiefe", CellOther "1,5"); ("Notiz", CellOther "7")] !! "tex86" = None /\
  map_row (<["Tiefe" := Some "depth"]> (<["Notiz" := None]> ∅))
          [("Tiefe", CellOther "1,5"); ("Notiz", CellOther "7")] !! "depth" <> Some NaN.
Proof.
  pose proof (imported_fields_come_from_mapped_cells
                (<["Tiefe" := Some "depth"]> (<["Notiz" := None]> ∅))
                [("Tiefe", CellOther "1,5"); ("Notiz", CellOther "7")] "tex86")
    as (_ & Hnone & _).
  pose proof (imported_fields_come_from_mapped_cells
                (<["Tiefe" := Some "depth"]> (<["Notiz" := None]> ∅))
                [("Tiefe", CellOther "1,5"); ("Notiz", CellOther "7")] "depth")
    as (_ & _ & Hnan).
  split.
  - apply Hnone. intros header.
    destruct (decide (header = "Tiefe")) as [->|H1]; [by rewrite lookup_insert_eq|].
    rewrite lookup_insert_ne by done.
    destruct (decide (header = "Notiz")) as [->|H2]; [by rewrite lookup_insert_eq|].
    by rewrite lookup_insert_ne, lookup_empty.
  - apply Hnan. by repeat constructor.
Defined.

Lemma rows_without_depth (finalMap : gmap string (option string))
    (data : list (list (string * cell))) :
  (forall header, finalMap !! header <> Some (Some "depth")) ->
  List.filter has_depth (map (map_row finalMap) data) = [].
Proof.
  intros Hd. induction data as [|row data IH]; simpl; [done|].
  assert (Hnd : ~ is_Some (depth (map_row finalMap row)))
    by (unfold depth; rewrite (map_row_unmapped finalMap row "depth" Hd); by intros [? ?]).
  unfold has_depth at 1. by rewrite (bool_decide_eq_false_2 _ Hnd).
Qed.

Lemma rows_without_depth_or_age (finalMap : gmap string (option string))
    (data : list (list (string * cell))) :
  (forall header, finalMap !! header <> Some (Some "depth")) ->
  (forall header, finalMap !! header <> Some (Some "age")) ->
  List.filter (fun dp => negb (bool_decide (dp = ∅)) &&
                         (bool_decide (is_Some (depth dp)) || bool_decide (is_Some (age dp))))
              (map (map_row finalMap) data) = [].
Proof.
  intros Hd Ha. induction data as [|row data IH]; simpl; [done|].
  assert (Hnd : ~ is_Some (depth (map_row finalMap row)))
    by (unfold depth; rewrite (map_row_unmapped finalMap row "depth" Hd); by intros [? ?]).
  assert (Hna : ~ is_Some (age (map_row finalMap row)))
    by (unfold age; rewrite (map_row_unmapped finalMap row "age" Ha); by intros [? ?]).
  rewrite (bool_decide_eq_false_2 _ Hnd), (bool_decide_eq_false_2 _ Hna).
  by rewrite andb_false_r.
Qed.

(** An import in which no column is mapped to the depth adds nothing: with
    no age column either it is refused; with one it is accepted, and the
    series it hands over has the records it had. *)
Theorem csv_import_needs_a_depth_column (section : SectionRec)
    (finalMap : gmap string (option string)) (data : list (list (string * cell))) :
  (forall header, finalMap !! header <> Some (Some "depth")) ->
  ((forall header, finalMap !! header <> Some (Some "age")) ->
   handleConfirmMapping section (map (map_row finalMap) data) = None) /\
  (forall updated,
     NoDup (map depth (dataPoints section)) ->
     handleConfirmMapping section (map (map_row finalMap) data) = Some updated ->
     dataPoints updated ≡ₚ dataPoints section /\
     id updated = id section /\ labAnalysis updated = labAnalysis section).
Proof.
  intros Hd. split.
  - intros Ha. unfold handleConfirmMapping. rewrite rows_without_depth_or_age by done.
    done.
  - intros updated Hnd. unfold handleConfirmMapping.
    destruct (length _ =? 0)%nat; [done|]. intros [= <-]. simpl.
    rewrite (Map_new_keyed _ Hnd), fold_merge_point_upsert, filter_has_depth_valid.
    rewrite rows_without_depth by done. simpl.
    unfold Map_values. rewrite map_map. simpl. rewrite map_id.
    split; [apply sort_by_depth_sorted|done].
Qed.

Lemma csv_import_needs_a_depth_column_witness :
  handleConfirmMapping (sample_section "S1" [sample_point 9; sample_aged_point 5 7])
    (map (map_row (<["Notiz" := None]> ∅)) [[("Notiz", CellOther "7")]]) = None /\
  dataPoints (sample_section "S1" [sample_aged_point 5 7; sample_point 9])
    ≡ₚ dataPoints (sample_section "S1" [sample_point 9; sample_aged_point 5 7]).
Proof.
  assert (Hmap : forall (k : string) (header : string),
            k <> "age" ->
            (<["Alter" := Some "age"]> (<["Notiz" := None]> ∅) : gmap string (option string))
              !! header <> Some (Some k)).
  { intros k header Hk.
    destruct (decide (header = "Alter")) as [->|H1].
    - rewrite lookup_insert_eq. by intros [= <-].
    - rewrite lookup_insert_ne by done.
      destruct (decide (header = "Notiz")) as [->|H2]; [by rewrite lookup_insert_eq|].
      by rewrite lookup_insert_ne, lookup_empty. }
  assert (Hnone : forall (k : string) (header : string),
            (<["Notiz" := None]> ∅ : gmap string (option string)) !! header
            <> Some (Some k)).
  { intros k header.
    destruct (decide (header = "Notiz")) as [->|H2]; [by rewrite lookup_insert_eq|].
    by rewrite lookup_insert_ne, lookup_empty. }
  split.
  - apply (csv_import_needs_a_depth_column
             (sample_section "S1" [sample_point 9; sample_aged_point 5 7])
             (<["Notiz" := None]> ∅) [[("Notiz", CellOther "7")]]); apply Hnone.
  - apply (csv_import_needs_a_depth_column
             (sample_section "S1" [sample_point 9; sample_aged_point 5 7])
             (<["Alter" := Some "age"]> (<["Notiz" := None]> ∅))
             [[("Alter", CellNumber (num_of_Z 4)); ("Notiz", CellOther "7")]]).
    + intros header. by apply Hmap.
    + by_evaluation.
    + by_evaluation.
Defined.

(** ** The dashboard: epoch filter and selection *)

Lemma find_id_Some (sid : string) (l : list SectionRec) (s : SectionRec) :
  find_id sid l = Some s -> s ∈ l /\ id s = sid.
Proof.
  unfold find_id. intros H. apply find_some in H as [Hin Hid].
  split; [by apply list_elem_of_In|]. by apply String.eqb_eq.
Qed.

Lemma some_id_spec (sid : string) (l : list SectionRec) :
  some_id sid l = true <-> sid ∈ map id l.
Proof.
  unfold some_id. rewrite existsb_exists. split.
  - intros (s & Hin & Heq). apply String.eqb_eq in Heq as <-.
    apply (list_elem_of_fmap_2 id). by apply list_elem_of_In.
  - intros Hin. apply (list_elem_of_fmap id) in Hin as (s & -> & Hin).
    exists s. split; [by apply list_elem_of_In|apply String.eqb_refl].
Qed.

Lemma filteredSections_elem (s : SectionRec) (sections : list SectionRec)
    (epochFilter : string) :
  s ∈ filteredSections sections epochFilter <->
  s ∈ sections /\ (epochFilter = "all" \/ epoch s = Some epochFilter).
Proof.
  unfold filteredSections. destruct (String.eqb_spec epochFilter "all") as [->|Hne].
  - split; [intros H; split; [done|by left]|by intros [H _]].
  - rewrite !list_elem_of_In, filter_In, bool_decide_eq_true. split.
    + intros [H1 H2]. split; [done|by right].
    + intros [H1 [H2|H2]]; [done|by split].
Qed.

Lemma Set_add_elem {A} `{EqDecision A} (values : list A) (x y : A) :
  y ∈ Set_add values x <-> y ∈ values \/ y = x.
Proof.
  unfold Set_add. destruct (decide (x ∈ values)) as [Hin|Hnin].
  - split; [by left|]. intros [H| ->]; done.
  - rewrite elem_of_app, list_elem_of_singleton. done.
Qed.

Lemma Set_new_elem {A} `{EqDecision A} (values : list A) (y : A) :
  y ∈ Set_new values <-> y ∈ values.
Proof.
  unfold Set_new.
  assert (H' : forall acc : list A,
             y ∈ fold_left Set_add values acc <-> y ∈ acc \/ y ∈ values).
  { induction values as [|x values IH]; intros acc; simpl.
    - split; [by left|]. intros [Hy|Hy]; [done|]. by apply elem_of_nil in Hy.
    - rewrite IH, Set_add_elem, elem_of_cons. tauto. }
  rewrite H'. split; [|by right]. intros [Hy|Hy]; [|done]. by apply elem_of_nil in Hy.
Qed.

Lemma selection_effect_None (filtered : list SectionRec) (selectedSection : option SectionRec) :
  selection_effect filtered selectedSection = None <-> filtered = [].
Proof.
  unfold selection_effect. destruct selectedSection as [selected|].
  - destruct filtered as [|s filtered]; [done|].
    by destruct (negb (some_id (id selected) (s :: filtered))).
  - by destruct filtered.
Qed.

Lemma selection_effect_Some (filtered : list SectionRec) (selectedSection : option SectionRec)
    (s : SectionRec) :
  selection_effect filtered selectedSection = Some s ->
  s ∈ filtered \/ (selectedSection = Some s /\ id s ∈ map id filtered).
Proof.
  unfold selection_effect. destruct selectedSection as [selected|].
  - destruct (some_id (id selected) filtered) eqn:Hsome; simpl.
    + intros [= <-]. right. split; [done|]. by apply some_id_spec.
    + intros H. left. by apply head_Some_elem_of.
  - destruct (0 <? length filtered)%nat; [|done].
    intros H. left. by apply head_Some_elem_of.
Qed.

(** The epoch filter offers the epoch of every section, and an offered
    epoch shows at least one section of a core that has sections.  The
    effect that follows a change of the filter leaves no section selected
    only when none is shown; the one it leaves selected has the identifier of
    a shown section; and running it again changes nothing. *)
Theorem epoch_filter_and_selection (sections : list SectionRec) (epochFilter : string)
    (selectedSection : option SectionRec) :
  (forall s, s ∈ sections -> epoch s ∈ availableEpochs sections) /\
  (Some epochFilter ∈ availableEpochs sections -> sections <> [] ->
   filteredSections sections epochFilter <> []) /\
  (selection_effect (filteredSections sections epochFilter) selectedSection = None <->
   filteredSections sections epochFilter = []) /\
  (forall s, selection_effect (filteredSections sections epochFilter) selectedSection = Some s ->
             id s ∈ map id (filteredSections sections epochFilter)) /\
  selection_effect (filteredSections sections epochFilter)
    (selection_effect (filteredSections sections epochFilter) selectedSection)
  = selection_effect (filteredSections sections epochFilter) selectedSection.
Proof.
  repeat match goal with |- _ /\ _ => split end.
  - intros s Hs. unfold availableEpochs. right.
    apply Set_new_elem. by apply (list_elem_of_fmap_2 epoch).
  - intros Hin Hne.
    destruct (String.eqb_spec epochFilter "all") as [->|Hall]; [done|].
    unfold availableEpochs in Hin. apply elem_of_cons in Hin as [[= ->]|Hin]; [done|].
    apply Set_new_elem, (list_elem_of_fmap epoch) in Hin as (s & Hs & Hin).
    assert (Hf : s ∈ filteredSections sections epochFilter)
      by (apply filteredSections_elem; split; [done|by right]).
    intros Hnil. rewrite Hnil in Hf. by apply elem_of_nil in Hf.
  - apply selection_effect_None.
  - intros s Hs. apply selection_effect_Some in Hs as [Hs|[_ Hs]]; [|done].
    by apply (list_elem_of_fmap_2 id).
  - destruct (selection_effect (filteredSections sections epochFilter) selectedSection)
      as [s|] eqn:Hs.
    + apply selection_effect_Some in Hs as [Hs|[_ Hs]].
      * apply (list_elem_of_fmap_2 id) in Hs. apply some_id_spec in Hs.
        unfold selection_effect. change (id <$> ?l) with (map id l) in *.
        by rewrite Hs.
      * apply some_id_spec in Hs. unfold selection_effect. by rewrite Hs.
    + apply selection_effect_None in Hs. by rewrite Hs.
Qed.

Lemma epoch_filter_and_selection_witness :
  filteredSections calibrated_AB "Pleistocene" <> [].
Proof.
  apply (epoch_filter_and_selection calibrated_AB "Pleistocene" None).
  - by_evaluation.
  - done.
Defined.

(** ** The dashboard: what stays true whatever happens *)

Lemma update_keeps_elem (sections : list SectionRec) (newSection s : SectionRec) :
  s ∈ sections ->
  (if String.eqb (id s) (id newSection) then newSection else s)
    ∈ map (fun s => if String.eqb (id s) (id newSection) then newSection else s) sections.
Proof.
  intros Hs.
  by apply (list_elem_of_fmap_2
              (fun s => if String.eqb (id s) (id newSection) then newSection else s)).
Qed.

Lemma dashboard_step_loaded (st : Dashboard) (e : dashboard_event) :
  selection_loaded st -> selection_loaded (dashboard_step st e).
Proof.
  unfold selection_loaded. intros Hst.
  destruct e as [[fetched|]|[newSection|]|value|value| | | |cal]; simpl; try done.
  - intros s.
    destruct (st_editingSection st) as [editing|].
    + destruct (find_id (id editing) fetched) as [found|] eqn:Hfound.
      * intros [= <-]. by apply find_id_Some in Hfound as [? _].
      * apply head_Some_elem_of.
    + destruct (st_selectedSection st) as [selected|].
      * destruct (find_id (id selected) fetched) as [found|] eqn:Hfound.
        -- intros [= <-]. by apply find_id_Some in Hfound as [? _].
        -- apply head_Some_elem_of.
      * apply head_Some_elem_of.
  - intros s. destruct (st_selectedSection st) as [selected|] eqn:Hsel; [|done].
    pose proof (update_keeps_elem _ newSection _ (Hst selected eq_refl)) as Hin.
    destruct (String.eqb (id selected) (id newSection)); by intros [= <-].
  - destruct (find_id value _) as [section|] eqn:Hfound; [|done]. simpl.
    intros s [= <-]. apply find_id_Some in Hfound as [Hin _].
    by apply filteredSections_elem in Hin as [? _].
  - intros s Hs. apply selection_effect_Some in Hs as [Hs|[Hs _]].
    + by apply filteredSections_elem in Hs as [? _].
    + by apply Hst.
Qed.

Lemma dashboard_step_not_calibrated (st : Dashboard) (e : dashboard_event) :
  is_calibration e = false -> st_calibratedSections st = None ->
  st_calibratedSections (dashboard_step st e) = None.
Proof.
  destruct e as [[fetched|]|[newSection|]|value|value| | | |cal]; simpl; try done.
  by destruct (find_id value _).
Qed.

Lemma dashboard_run_not_calibrated (events : list dashboard_event) (st : Dashboard) :
  forallb (fun e => negb (is_calibration e)) events = true ->
  st_calibratedSections st = None ->
  st_calibratedSections (dashboard_run events st) = None.
Proof.
  revert st. induction events as [|e events IH]; intros st Hall Hst; simpl; [done|].
  simpl in Hall. apply andb_true_iff in Hall as [He Hall].
  apply IH; [done|]. apply dashboard_step_not_calibrated; [|done].
  by destruct (is_calibration e).
Qed.

(** Whatever happens to the dashboard, in whatever order, one event after
    the other: the selected section is one of the loaded sections, and after
    a fetch of the sections, failed or not, there are no calibrated sections
    until an age model is generated again. *)
Theorem dashboard_selection_is_loaded (events : list dashboard_event) :
  (forall s, st_selectedSection (dashboard_run events initial_dashboard) = Some s ->
             s ∈ st_sections (dashboard_run events initial_dashboard)) /\
  (forall before fetched after,
     events = before ++ Fetch fetched :: after ->
     forallb (fun e => negb (is_calibration e)) after = true ->
     st_calibratedSections (dashboard_run events initial_dashboard) = None).
Proof.
  split.
  - change (selection_loaded (dashboard_run events initial_dashboard)).
    assert (H : forall st, selection_loaded st -> selection_loaded (dashboard_run events st)).
    { induction events as [|e events IH]; intros st Hst; simpl; [done|].
      apply IH. by apply dashboard_step_loaded. }
    apply H. by intros s.
  - intros before fetched after -> Hafter.
    unfold dashboard_run. rewrite fold_left_app. simpl.
    apply dashboard_run_not_calibrated; [done|]. by destruct fetched.
Qed.

Lemma dashboard_selection_is_loaded_witness :
  st_calibratedSections
    (dashboard_run [Fetch (Some calibrated_AB); CalibratedDataChange calibrated_AB;
                    Fetch None; SelectSection "B"; SelectionEffect]
                   initial_dashboard) = None.
Proof.
  apply (dashboard_selection_is_loaded
           [Fetch (Some calibrated_AB); CalibratedDataChange calibrated_AB;
            Fetch None; SelectSection "B"; SelectionEffect])
    with (before := [Fetch (Some calibrated_AB); CalibratedDataChange calibrated_AB])
         (fetched := None) (after := [SelectSection "B"; SelectionEffect]);
    reflexivity.
Defined.

(** ** The summary of a section *)

Lemma occurs_cons (c c' : ascii) (rest : string) :
  occurs c (String c' rest) = (Ascii.eqb c' c || occurs c rest)%bool.
Proof. done. Qed.

Lemma remove_markdown_cons (c : ascii) (rest : string) :
  remove_markdown (String c rest)
  = if (Ascii.eqb c "*" || Ascii.eqb c "#")%bool then remove_markdown rest
    else String c (remove_markdown rest).
Proof. done. Qed.

Lemma occurs_remove_markdown (c : ascii) (text : string) :
  occurs c (remove_markdown text)
  = if (Ascii.eqb c "*" || Ascii.eqb c "#")%bool then false else occurs c text.
Proof.
  induction text as [|c' text IH]; [by destruct (_ || _)%bool|].
  rewrite remove_markdown_cons, occurs_cons.
  destruct (Ascii.eqb_spec c' "*") as [->|Hstar];
    [|destruct (Ascii.eqb_spec c' "#") as [->|Hhash]]; cbn [orb].
  - rewrite IH. destruct (Ascii.eqb_spec c "*") as [->|Hc]; [done|].
    cbn [orb]. destruct (Ascii.eqb c "#"); [done|].
    destruct (Ascii.eqb_spec "*"%char c) as [<-|_]; done.
  - rewrite IH. destruct (Ascii.eqb c "*"); [done|]. cbn [orb].
    destruct (Ascii.eqb_spec c "#") as [->|Hc]; [done|].
    destruct (Ascii.eqb_spec "#"%char c) as [<-|_]; done.
  - rewrite occurs_cons, IH.
    destruct (Ascii.eqb_spec c "*") as [->|Hc1]; cbn [orb].
    + destruct (Ascii.eqb_spec c' "*"%char) as [->|_]; done.
    + destruct (Ascii.eqb_spec c "#") as [->|Hc2]; [|done].
      destruct (Ascii.eqb_spec c' "#"%char) as [->|_]; done.
Qed.

Lemma remove_markdown_clean (text : string) :
  occurs "*" text = false -> occurs "#" text = false -> remove_markdown text = text.
Proof.
  induction text as [|c text IH]; [done|].
  rewrite !occurs_cons, remove_markdown_cons. intros Hstar Hhash.
  apply orb_false_iff in Hstar as [Hc1 Hstar], Hhash as [Hc2 Hhash].
  rewrite Hc1, Hc2. cbn [orb]. by rewrite IH.
Qed.

(** Generating a summary changes the summary of the section and nothing else,
    and always stores a text.  When the service answers, the text stored is
    the answer without its asterisks and hash signs: it has neither, every
    other character occurs in it as it does in the answer, and an answer
    that had neither is stored as it is.  When there is no key or the call
    fails, an error text is stored in place of the summary the section had. *)
Theorem summary_generation (API_KEY : bool) (reply : summary_reply)
    (section : SectionRec) :
  id (handleGenerateSummary API_KEY reply section) = id section /\
  core_id (handleGenerateSummary API_KEY reply section) = core_id section /\
  name (handleGenerateSummary API_KEY reply section) = name section /\
  dataPoints (handleGenerateSummary API_KEY reply section) = dataPoints section /\
  labAnalysis (handleGenerateSummary API_KEY reply section) = labAnalysis section /\
  (forall k, k <> "summary" ->
     metadata (handleGenerateSummary API_KEY reply section) !! k = metadata section !! k) /\
  (forall text, API_KEY = true -> reply = SummaryText text ->
     exists cleaned,
       summary (handleGenerateSummary API_KEY reply section) = Some cleaned /\
       occurs "*" cleaned = false /\ occurs "#" cleaned = false /\
       (forall c, c <> "*"%char -> c <> "#"%char -> occurs c cleaned = occurs c text) /\
       (occurs "*" text = false -> occurs "#" text = false -> cleaned = text)) /\
  (API_KEY = false \/ (exists message, reply = SummaryRejected message) ->
   exists text,
     summary (handleGenerateSummary API_KEY reply section) = Some text /\
     (text = "Error: API key is not configured." \/
      exists cause, text = ("AI Summary Error: " ++ cause)%string)).
Proof.
  unfold handleGenerateSummary, summary, with_summary. simpl.
  repeat match goal with |- _ /\ _ => split end; try done.
  - intros k Hk. by rewrite lookup_insert_ne.
  - intros text -> ->. rewrite lookup_insert_eq. eexists. split; [done|].
    change (generateSectionSummary true (SummaryText text)) with (remove_markdown text).
    split; [by rewrite occurs_remove_markdown|].
    split; [by rewrite occurs_remove_markdown|].
    split; [|apply remove_markdown_clean].
    intros c Hc1 Hc2. rewrite occurs_remove_markdown.
    apply Ascii.eqb_neq in Hc1, Hc2. by rewrite Hc1, Hc2.
  - rewrite lookup_insert_eq. intros [->|[message ->]].
    + eexists. split; [done|]. by left.
    + destruct API_KEY; simpl; (eexists; split; [done|]); [|by left].
      right. destruct message; by eexists.
Qed.

Lemma summary_generation_witness :
  exists cleaned,
    summary (handleGenerateSummary true (SummaryText "## Overview: *warm* stage")
               (sample_section "S1" [])) = Some cleaned /\
    occurs "*" cleaned = false /\ occurs "#" cleaned = false.
Proof.
  destruct (summary_generation true (SummaryText "## Overview: *warm* stage")
              (sample_section "S1" [])) as (_ & _ & _ & _ & _ & _ & Hclean & _).
  destruct (Hclean "## Overview: *warm* stage" eq_refl eq_refl)
    as (cleaned & Hsum & Hstar & Hhash & _).
  exists cleaned. by repeat split.
Defined.

(** ** The header mapping asked from the service *)

Lemma assoc_set_field (k k' : string) (v : json) (fields : list (string * json)) :
  assoc k (set_field k' v fields) = if String.eqb k' k then Some v else assoc k fields.
Proof.
  induction fields as [|[k0 v0] fields IH]; simpl; [done|].
  destruct (String.eqb_spec k0 k') as [->|Hne]; simpl.
  - by destruct (String.eqb k' k).
  - rewrite IH. destruct (String.eqb_spec k0 k) as [->|Hk]; [|done].
    by rewrite (proj2 (String.eqb_neq k' k)).
Qed.

Lemma assoc_fold_set_field (k : string) (headers : list string)
    (fields : list (string * json)) :
  assoc k (fold_left (fun acc header => set_field header JNull acc) headers fields)
  = if decide (k ∈ headers) then Some JNull else assoc k fields.
Proof.
  revert fields. induction headers as [|h headers IH]; intros fields.
  - destruct (decide (k ∈ [])) as [Hin|_]; [by apply elem_of_nil in Hin|done].
  - cbn [fold_left]. rewrite IH, assoc_set_field.
    destruct (decide (k ∈ headers)) as [Hin|Hnin].
    + rewrite decide_True; [done|]. by right.
    + destruct (String.eqb_spec h k) as [->|Hne].
      * rewrite decide_True; [done|]. by left.
      * rewrite decide_False; [done|].
        intros Hin. apply elem_of_cons in Hin as [->|Hin]; done.
Qed.

(** With a key, [mapCsvHeaders] always returns.  When the request fails,
    the answer is not JSON or is [null], it returns the object that maps
    every header of the file to [null] and has no other key.  On any other
    answer it returns the [mapping] field, whatever it is: for an answer
    without that field the value is [undefined], not the fallback. *)
Theorem mapCsvHeaders_fallback (generateContent : list string -> delegate_reply)
    (headers : list string) :
  (exists mapping, mapCsvHeaders true generateContent headers = Some mapping) /\
  (generateContent headers = RequestFailed \/ generateContent headers = NotJson \/
   generateContent headers = Parsed JNull ->
   exists fields,
     mapCsvHeaders true generateContent headers = Some (Some (JObj fields)) /\
     forall header,
       assoc header fields = if decide (header ∈ headers) then Some JNull else None) /\
  (forall fields, generateContent headers = Parsed (JObj fields) ->
     mapCsvHeaders true generateContent headers = Some (assoc "mapping" fields)) /\
  (forall fields, generateContent headers = Parsed (JObj fields) ->
     assoc "mapping" fields = None ->
     mapCsvHeaders true generateContent headers = Some None).
Proof.
  unfold mapCsvHeaders. cbn [negb].
  repeat match goal with |- _ /\ _ => split end.
  - destruct (generateContent headers) as [| |[]]; by eexists.
  - intros H. exists (fold_left (fun acc header => set_field header JNull acc) headers []).
    split; [by destruct H as [->|[->| ->]]|].
    intros header. by rewrite assoc_fold_set_field.
  - by intros fields ->.
  - by intros fields -> <-.
Qed.

Lemma mapCsvHeaders_fallback_witness :
  exists fields,
    mapCsvHeaders true (fun _ => NotJson) ["Tiefe"; "Alter"] = Some (Some (JObj fields)) /\
    forall header,
      assoc header fields
      = if decide (header ∈ ["Tiefe"; "Alter"]) then Some JNull else None.
Proof.
  apply (mapCsvHeaders_fallback (fun _ => NotJson) ["Tiefe"; "Alter"]).
  right. left. reflexivity.
Defined.

(** ** Depth as the key of a series: the two ways of adding records *)













